(** * listlib: a type-erased dynamic array (src/list.c, include/list.h)

    Shallow embedding of the list_ function family and the properties of
    its capacity management.

    Conventions of the embedding:
    - [size_t] values are integers in [0, SIZE_MAX]; every multiplication,
      addition and subtraction the C code performs on them is written with
      its wrap-around ([size_mul], [size_add], [size_sub]).  An LP64 target
      is assumed (64-bit [size_t]).
    - A pointer that may be [nullptr] is an [option]: [None] is the null
      pointer, [Some x] points to the object [x].
    - A block of memory is the list of its bytes.  [lst->data] is the block
      itself, so the C pointer arithmetic [data + off] becomes an offset
      into that list.
    - Undefined behaviour of the C program (dereferencing a null pointer,
      [memcpy]/[memset] outside a block, [realloc] to zero bytes) is the
      outcome [Undefined]; a call that returns normally is [Returns r].
    - The allocator is an external collaborator: every function that can
      allocate takes the allocator's answer for that call as an argument. *)

From Stdlib Require Import ZArith Lia.
From Stdlib Require Import Strings.Byte.
From stdpp Require Import base option list strings.

Local Open Scope Z_scope.

(** ** Machine integers *)

Definition SIZE_MAX : Z := 2 ^ 64 - 1.

Definition size_t (z : Z) : Prop := 0 ≤ z ≤ SIZE_MAX.

Definition wrap (z : Z) : Z := z mod (SIZE_MAX + 1).

Definition size_mul (a b : Z) : Z := wrap (a * b).
Definition size_add (a b : Z) : Z := wrap (a + b).
Definition size_sub (a b : Z) : Z := wrap (a - b).

(** ** Outcomes of a C call *)

Inductive outcome (A : Type) : Type :=
| Undefined : outcome A
| Returns : A → outcome A.

Arguments Undefined {A}.
Arguments Returns {A} _.

#[global] Instance outcome_ret : MRet outcome := @Returns.

#[global] Instance outcome_bind : MBind outcome := λ A B f m,
  match m with
  | Undefined => Undefined
  | Returns a => f a
  end.

#[global] Instance outcome_fmap : FMap outcome := λ A B f m,
  match m with
  | Undefined => Undefined
  | Returns a => Returns (f a)
  end.

(** ** Memory blocks *)

Abbreviation bytes := (list byte).

Definition blen (b : bytes) : Z := Z.of_nat (length b).

Definition in_bounds (b : bytes) (off n : Z) : bool :=
  (0 <=? off) && (0 <=? n) && (off + n <=? blen b).

(** [slice b off n]: the [n] bytes of [b] from offset [off]. *)
Definition slice (b : bytes) (off n : Z) : bytes :=
  take (Z.to_nat n) (drop (Z.to_nat off) b).

(** [splice dst off src]: [dst] with the bytes from [off] replaced by [src]. *)
Definition splice (dst : bytes) (off : Z) (src : bytes) : bytes :=
  take (Z.to_nat off) dst ++ src ++ drop (Z.to_nat off + length src) dst.

(** [memcpy (dst + doff, src + soff, n)]. *)
Definition memcpy (dst : bytes) (doff : Z) (src : bytes) (soff n : Z)
  : outcome bytes :=
  if in_bounds dst doff n && in_bounds src soff n
  then Returns (splice dst doff (slice src soff n))
  else Undefined.

(** [memset (dst + off, c, n)]. *)
Definition memset (dst : bytes) (off : Z) (c : byte) (n : Z) : outcome bytes :=
  if in_bounds dst off n
  then Returns (splice dst off (replicate (Z.to_nat n) c))
  else Undefined.

(** ** The allocator

    [grants n] tells whether a request for [n] bytes is satisfied;
    [fill] is the content of memory the allocator hands out without
    initialising it. *)

Record allocator : Type := mk_allocator {
  grants : Z → bool;
  fill : nat → byte
}.

Definition junk (a : allocator) (n : nat) : bytes := fill a <$> seq 0 n.

Arguments junk _ _ : simpl never.

(** [calloc (n, sz)]: fails when [n * sz] does not fit a [size_t]. *)
Definition calloc (a : allocator) (n sz : Z) : option bytes :=
  if (n * sz <=? SIZE_MAX) && grants a (n * sz)
  then Some (replicate (Z.to_nat (n * sz)) x00)
  else None.

(** [realloc (p, n)]: on success the new block keeps the old content up to
    the smaller of the two sizes and the rest is uninitialised; on failure
    the old block stays as it is.  A zero size is undefined (C23). *)
Definition realloc (a : allocator) (p : option bytes) (n : Z)
  : outcome (option bytes) :=
  if n =? 0 then Undefined
  else if grants a n then
    let old := default [] p in
    Returns (Some (take (Z.to_nat n) old ++ junk a (Z.to_nat n - length old)))
  else Returns None.

(** ** include/list.h *)

Record list_t : Type := mk_list {
  data : option bytes;
  size : Z;
  capacity : Z;
  elem_size : Z
}.

Inductive list_status : Type :=
| LIST_OK
| LIST_ERR_ALLOC
| LIST_ERR_INVALID
| LIST_OUT_OF_BOUNDS.

#[global] Instance list_status_eq_dec : EqDecision list_status.
Proof. solve_decision. Defined.

Definition set_data (l : list_t) (d : option bytes) : list_t :=
  mk_list d (size l) (capacity l) (elem_size l).
Definition set_size (l : list_t) (n : Z) : list_t :=
  mk_list (data l) n (capacity l) (elem_size l).
Definition set_capacity (l : list_t) (n : Z) : list_t :=
  mk_list (data l) (size l) n (elem_size l).
Definition set_elem_size (l : list_t) (n : Z) : list_t :=
  mk_list (data l) (size l) (capacity l) n.

(** ** src/list.c *)

Definition list_resize (a : allocator) (lst : option list_t) (new_capacity : Z)
  : outcome (list_status * option list_t) :=
  match lst with
  | None => Returns (LIST_ERR_INVALID, lst)
  | Some l =>
    if new_capacity =? 0 then Returns (LIST_ERR_INVALID, lst)
    else if new_capacity =? capacity l then Returns (LIST_OK, lst)
    else
      new_data ← realloc a (data l) (size_mul new_capacity (elem_size l));
      match new_data with
      | None => Returns (LIST_ERR_ALLOC, lst)
      | Some blk =>
        blk ← (if capacity l <? new_capacity then
                 let diff := size_sub new_capacity (capacity l) in
                 memset blk (size_mul (capacity l) (elem_size l)) x00
                        (size_mul diff (elem_size l))
               else Returns blk);
        let l := set_data l (Some blk) in
        let l := set_capacity l new_capacity in
        let l := if new_capacity <? size l then set_size l new_capacity else l in
        Returns (LIST_OK, Some l)
      end
  end.

Definition list_grow (a : allocator) (lst : option list_t)
  : outcome (list_status * option list_t) :=
  match lst with
  | None => Undefined
  | Some l =>
    let new_capacity :=
      if capacity l =? 0 then 1 else size_mul (capacity l) 2 in
    list_resize a lst new_capacity
  end.

Definition list_init_with_capacity (a : allocator) (lst : option list_t)
    (capacity elem_size : Z) : list_status * option list_t :=
  match lst with
  | None => (LIST_ERR_INVALID, lst)
  | Some l =>
    if elem_size =? 0 then (LIST_ERR_INVALID, lst)
    else
      let l := set_data l None in
      let l := set_size l 0 in
      let l := set_capacity l 0 in
      let l := set_elem_size l elem_size in
      if capacity =? 0 then (LIST_OK, Some l)
      else
        let l := set_data l (calloc a capacity elem_size) in
        match data l with
        | None => (LIST_ERR_ALLOC, Some l)
        | Some _ => (LIST_OK, Some (set_capacity l capacity))
        end
  end.

Definition list_init (a : allocator) (lst : option list_t) (elem_size : Z)
  : list_status * option list_t :=
  list_init_with_capacity a lst 0 elem_size.

(** [list_destroy] gives the object after the call and the block handed to
    [free] ([free (nullptr)] releases nothing). *)
Definition list_destroy (lst : option list_t) : option list_t * option bytes :=
  match lst with
  | None => (None, None)
  | Some l =>
    let freed := data l in
    let l := set_data l None in
    let l := set_size l 0 in
    let l := set_capacity l 0 in
    (Some l, freed)
  end.

Definition list_size (lst : option list_t) : Z :=
  match lst with Some l => size l | None => 0 end.

Definition list_capacity (lst : option list_t) : Z :=
  match lst with Some l => capacity l | None => 0 end.

Definition list_push (a : allocator) (lst : option list_t) (value : option bytes)
  : outcome (list_status * option list_t) :=
  match lst, value with
  | None, _ | _, None => Returns (LIST_ERR_INVALID, lst)
  | Some l, Some v =>
    grown ← (if capacity l <=? size l then list_grow a lst
             else Returns (LIST_OK, lst));
    match grown with
    | (LIST_OK, Some l) =>
      match data l with
      | None => Undefined
      | Some buf =>
        buf ← memcpy buf (size_mul (size l) (elem_size l)) v 0 (elem_size l);
        let l := set_data l (Some buf) in
        let l := set_size l (size_add (size l) 1) in
        Returns (LIST_OK, Some l)
      end
    | (LIST_OK, None) => Undefined
    | (err, lst) => Returns (err, lst)
    end
  end.

Definition list_pop (a : allocator) (lst : option list_t) (out_value : option bytes)
  : outcome (list_status * option list_t * option bytes) :=
  match lst with
  | None => Undefined
  | Some l =>
    match data l with
    | None => Returns (LIST_ERR_INVALID, lst, out_value)
    | Some buf =>
      if size l =? 0 then Returns (LIST_ERR_INVALID, lst, out_value)
      else
        let l := set_size l (size_sub (size l) 1) in
        out ← match out_value with
              | None => Returns None
              | Some o =>
                o ← memcpy o 0 buf (size_mul (size l) (elem_size l)) (elem_size l);
                Returns (Some o)
              end;
        if (1 <? capacity l) && (size l <? capacity l / 4) then
          let new_capacity := capacity l / 2 in
          let new_capacity := if new_capacity <? 1 then 1 else new_capacity in
          '(err, lst) ← list_resize a (Some l) new_capacity;
          match err with
          | LIST_OK => Returns (LIST_OK, lst, out)
          | _ => Returns (err, lst, out)
          end
        else Returns (LIST_OK, Some l, out)
    end
  end.

Definition list_get (lst : option list_t) (index : Z) (out_value : option bytes)
  : outcome (list_status * option bytes) :=
  match lst, out_value with
  | None, _ | _, None => Returns (LIST_ERR_INVALID, out_value)
  | Some l, Some o =>
    match data l with
    | None => Returns (LIST_ERR_INVALID, out_value)
    | Some buf =>
      if size l <=? index then Returns (LIST_OUT_OF_BOUNDS, out_value)
      else
        o ← memcpy o 0 buf (size_mul index (elem_size l)) (elem_size l);
        Returns (LIST_OK, Some o)
    end
  end.

Definition list_peek (lst : option list_t) (out_value : option bytes)
  : outcome (list_status * option bytes) :=
  match lst with
  | None => Undefined
  | Some l =>
    match data l, out_value with
    | None, _ | _, None => Returns (LIST_ERR_INVALID, out_value)
    | Some _, Some _ =>
      if size l =? 0 then Returns (LIST_ERR_INVALID, out_value)
      else list_get lst (size_sub (size l) 1) out_value
    end
  end.

Definition list_set (lst : option list_t) (index : Z) (value : option bytes)
  : outcome (list_status * option list_t) :=
  match lst with
  | None => Returns (LIST_ERR_INVALID, lst)
  | Some l =>
    match data l with
    | None => Returns (LIST_ERR_INVALID, lst)
    | Some buf =>
      if size l <=? index then Returns (LIST_OUT_OF_BOUNDS, lst)
      else
        match value with
        | None => Undefined
        | Some v =>
          buf ← memcpy buf (size_mul index (elem_size l)) v 0 (elem_size l);
          Returns (LIST_OK, Some (set_data l (Some buf)))
        end
    end
  end.

Definition list_clear (lst : option list_t) : option list_t :=
  match lst with
  | None => None
  | Some l => Some (set_size l 0)
  end.

(** The value of a [list_status] as the C enumeration defines it. *)
Definition status_code (s : list_status) : Z :=
  match s with
  | LIST_OK => 0
  | LIST_ERR_ALLOC => 1
  | LIST_ERR_INVALID => 2
  | LIST_OUT_OF_BOUNDS => 3
  end.

(** [list_error_to_string], on the integer value of its argument: an
    enumeration object can hold a value that names no enumerator, which the
    [default] case answers. *)
Definition list_error_to_string (err : Z) : string :=
  if err =? 0 then "No error"%string
  else if err =? 1 then "Error allocating memory"%string
  else if err =? 2 then "Invalid input"%string
  else if err =? 3 then "Out of bounds access attempted"%string
  else "Unknown error"%string.

(** * Specification vocabulary *)

(** ** Well-formed lists

    The representation invariant of a list: the fields are [size_t] values,
    the element width is positive, [size] does not exceed [capacity], and the
    buffer is absent exactly when [capacity] is zero and holds
    [capacity * elem_size] bytes otherwise. *)

Record wf (l : list_t) : Prop := mk_wf {
  wf_size : 0 ≤ size l ≤ capacity l;
  wf_elem : 0 < elem_size l ≤ SIZE_MAX;
  wf_bytes : capacity l * elem_size l ≤ SIZE_MAX;
  wf_data : match data l with
            | None => capacity l = 0
            | Some b => 0 < capacity l ∧ blen b = capacity l * elem_size l
            end
}.

(** The buffer as a block, empty when absent. *)
Definition buffer (l : list_t) : bytes := default [] (data l).

(** The bytes of the element slot at [index]. *)
Definition slot (l : list_t) (index : Z) : bytes :=
  slice (buffer l) (index * elem_size l) (elem_size l).

(** The bytes at element offsets [size, capacity). *)
Definition free_region (l : list_t) : bytes :=
  slice (buffer l) (size l * elem_size l)
        ((capacity l - size l) * elem_size l).

Definition free_zero (l : list_t) : Prop :=
  Forall (λ c, c = x00) (free_region l).

(** ** Runs of operations *)

(** A run of pushes that all report success; [None] when one does not. *)
Fixpoint push_all (ps : list (allocator * bytes)) (l : list_t) : option list_t :=
  match ps with
  | [] => Some l
  | (a, v) :: ps =>
    match list_push a (Some l) (Some v) with
    | Returns (LIST_OK, Some l) => push_all ps l
    | _ => None
    end
  end.

(** Popping once per allocator of [allocs], each time into a copy of the
    block [out]: the blocks read, in the order they were popped, and the
    list left.  The run stops early at a pop that returns
    [LIST_ERR_INVALID]. *)
Fixpoint pop_all (allocs : list allocator) (l : list_t) (out : bytes)
  : outcome (list bytes * list_t) :=
  match allocs with
  | [] => Returns ([], l)
  | a :: allocs =>
    '(st, lst, o) ← list_pop a (Some l) (Some out);
    match st, lst, o with
    | LIST_ERR_INVALID, _, _ => Returns ([], l)
    | _, Some l, Some o =>
      '(outs, l) ← pop_all allocs l out; Returns (o :: outs, l)
    | _, _, _ => Undefined
    end
  end.

(** The states a caller can bring a list to: a successful initialisation
    of any object, followed by any public operation that writes to the
    list, whatever status it returns.  ([list_init] is
    [list_init_with_capacity] with capacity 0; [list_get], [list_peek],
    [list_size] and [list_capacity] leave the list as it is.) *)
Inductive reachable : list_t → Prop :=
| reach_init a l0 c es l :
    size_t c → size_t es →
    list_init_with_capacity a (Some l0) c es = (LIST_OK, Some l) →
    reachable l
| reach_reinit a l c es st l' :
    reachable l → size_t c → size_t es →
    list_init_with_capacity a (Some l) c es = (st, Some l') →
    reachable l'
| reach_push a l value st l' :
    reachable l →
    list_push a (Some l) value = Returns (st, Some l') →
    reachable l'
| reach_pop a l out st l' out' :
    reachable l →
    list_pop a (Some l) out = Returns (st, Some l', out') →
    reachable l'
| reach_set l index value st l' :
    reachable l → size_t index →
    list_set (Some l) index value = Returns (st, Some l') →
    reachable l'
| reach_clear l l' :
    reachable l → list_clear (Some l) = Some l' → reachable l'
| reach_destroy l l' :
    reachable l → (list_destroy (Some l)).1 = Some l' → reachable l'.

(** The states reached without [list_pop] and [list_clear]. *)
Inductive unpopped : list_t → Prop :=
| unpopped_init a l0 c es l :
    size_t c → size_t es →
    list_init_with_capacity a (Some l0) c es = (LIST_OK, Some l) →
    unpopped l
| unpopped_push a l value st l' :
    unpopped l →
    list_push a (Some l) value = Returns (st, Some l') →
    unpopped l'
| unpopped_set l index value st l' :
    unpopped l → size_t index →
    list_set (Some l) index value = Returns (st, Some l') →
    unpopped l'
| unpopped_destroy l l' :
    unpopped l → (list_destroy (Some l)).1 = Some l' → unpopped l'.

(** ** Capacity management *)

(** The capacity a grow asks for, without wrap-around. *)
Definition doubled (c : Z) : Z := if c =? 0 then 1 else 2 * c.

(** The capacity after a successful push. *)
Definition push_capacity (l : list_t) : Z :=
  if size l <? capacity l then capacity l else doubled (capacity l).

(** The shrink test of [list_pop], on the state after the decrement. *)
Definition shrinks (l : list_t) : bool :=
  (1 <? capacity l) && (size l <? capacity l / 4).

(** The copy-out step of [list_pop]. *)
Definition copy_out (buf : bytes) (off n : Z) (out_value : option bytes)
  : outcome (option bytes) :=
  match out_value with
  | None => Returns None
  | Some o => o ← memcpy o 0 buf off n; Returns (Some o)
  end.

Definition is_pow2 (c : Z) : Prop := ∃ e, 0 ≤ e ∧ c = 2 ^ e.

(** [c] is the smallest power of two that is at least [k]. *)
Definition smallest_pow2_ge (k c : Z) : Prop :=
  is_pow2 c ∧ k ≤ c ∧ ∀ p, is_pow2 p → k ≤ p → c ≤ p.

Definition next_pow2 (k : Z) : Z := 2 ^ Z.log2_up k.

(** The capacity along a run of pushes that started from capacity 0. *)
Definition doubling (l : list_t) : Prop :=
  (size l = 0 ∧ capacity l = 0) ∨
  (0 < size l ∧ capacity l = next_pow2 (size l)).

(** ** Concrete lists, after tests/test_list.c *)

Definition always : allocator := mk_allocator (λ _, true) (λ _, xff).
Definition never : allocator := mk_allocator (λ _, false) (λ _, xff).

(** The byte with value [z mod 256]. *)
Definition byte_of_Z (z : Z) : byte :=
  default x00 (Byte.of_N (Z.to_N (z mod 256))).

(** The object representation of an [int32_t]: two's complement, little
    endian. *)
Definition int32 (n : Z) : bytes :=
  let u := n mod 2 ^ 32 in
  [byte_of_Z u; byte_of_Z (u / 2 ^ 8); byte_of_Z (u / 2 ^ 16);
   byte_of_Z (u / 2 ^ 24)].

(** An object that was never initialised. *)
Definition blank : list_t := mk_list None 0 0 0.

(** [setUp]: the list after [list_init (&test_list, sizeof (int32_t))]. *)
Definition test_list : list_t :=
  mk_list None 0 0 4.

(** The pushes of [populate_list_with_data]: 0, 10, ..., 90. *)
Definition ten_values : list (allocator * bytes) :=
  (λ i, (always, int32 (Z.of_nat i * 10))) <$> seq 0 10.

Definition populate_list_with_data (l : list_t) : option list_t :=
  push_all ten_values l.

(** [test_list] after [populate_list_with_data]. *)
Definition populated : list_t :=
  Eval vm_compute in default blank (populate_list_with_data test_list).

(** [test_list] after the single [int32_t] 5 was pushed. *)
Definition one_elem : list_t :=
  mk_list (Some (int32 5)) 1 1 4.

(** [one_elem] after its element was popped, or after a clear. *)
Definition freed_elem : list_t :=
  mk_list (Some (int32 5)) 0 1 4.

(** A list of one-byte elements initialised with capacity 8. *)
Definition eight_slots : list_t :=
  mk_list (Some (replicate 8 x00)) 0 8 1.

(** [eight_slots] after the bytes 1 and 2 were pushed. *)
Definition sparse : list_t :=
  mk_list (Some ([x01; x02] ++ replicate 6 x00)) 2 8 1.

(** [sparse] after a pop that shrank it. *)
Definition shrunk : list_t :=
  mk_list (Some [x01; x02; x00; x00]) 1 4 1.

(** [populated] after [list_set] wrote 123 at index 7. *)
Definition updated : list_t :=
  Eval vm_compute in
    match list_set (Some populated) 7 (Some (int32 123)) with
    | Returns (_, Some l) => l
    | _ => blank
    end.

(** A full list of one-byte elements at capacity 2^63, where
    [capacity * 2] wraps to 0 in [size_t]. *)
Definition at_limit : list_t :=
  mk_list (Some (replicate (Z.to_nat (2 ^ 63)) x00)) (2 ^ 63) (2 ^ 63) 1.


(** [one_elem] after the [int32_t] 7 was pushed: full, at capacity 2. *)
Definition two_elems : list_t :=
  Eval vm_compute in
    match list_push always (Some one_elem) (Some (int32 7)) with
    | Returns (_, Some l) => l
    | _ => blank
    end.

(** [two_elems] after the [int32_t] 9 was pushed: grown to capacity 4. *)
Definition three_elems : list_t :=
  Eval vm_compute in
    match list_push always (Some two_elems) (Some (int32 9)) with
    | Returns (_, Some l) => l
    | _ => blank
    end.

(** [then_get r index out]: after a call that returned [r], read the
    element at [index]. *)
Definition then_get (r : outcome (list_status * option list_t))
    (index : Z) (out : bytes) : outcome (list_status * option bytes) :=
  '(_, lst) ← r; list_get lst index (Some out).

Ltac unfold_bind := unfold mbind, outcome_bind.

(** * Properties *)

(** ** Wrap-around *)

Lemma wrap_small z : size_t z → wrap z = z.
Proof. intros [??]. unfold wrap. apply Z.mod_small. lia. Qed.

Lemma wrap_double z :
  0 ≤ z ≤ SIZE_MAX → SIZE_MAX < 2 * z → wrap (2 * z) = 2 * z - (SIZE_MAX + 1).
Proof.
  intros ??. unfold wrap.
  symmetry. apply (Z.mod_unique_pos _ _ 1); unfold SIZE_MAX in *; lia.
Qed.

(** ** Blocks, slices and splices *)

Section blocks.
Implicit Types (b dst src : bytes) (off n : Z) (j : nat).

Lemma blen_app b1 b2 : blen (b1 ++ b2) = blen b1 + blen b2.
Proof. unfold blen. rewrite length_app. lia. Qed.

Lemma blen_replicate n c : 0 ≤ n → blen (replicate (Z.to_nat n) c) = n.
Proof. unfold blen. rewrite length_replicate. lia. Qed.

Lemma length_junk a k : length (junk a k) = k.
Proof. unfold junk. by rewrite length_fmap, length_seq. Qed.

Lemma blen_junk a k : blen (junk a k) = Z.of_nat k.
Proof. unfold blen. by rewrite length_junk. Qed.

Lemma in_bounds_true b off n :
  in_bounds b off n = true ↔ 0 ≤ off ∧ 0 ≤ n ∧ off + n ≤ blen b.
Proof. unfold in_bounds. rewrite !andb_true_iff, !Z.leb_le. tauto. Qed.

Lemma lookup_slice b off n j :
  0 ≤ off → 0 ≤ n →
  slice b off n !! j =
    if decide (Z.of_nat j < n) then b !! (Z.to_nat off + j)%nat else None.
Proof.
  intros ??. unfold slice. case_decide.
  - rewrite lookup_take_lt by lia. apply lookup_drop.
  - apply lookup_take_ge. lia.
Qed.

Lemma blen_slice b off n :
  0 ≤ off → 0 ≤ n → off + n ≤ blen b → blen (slice b off n) = n.
Proof.
  unfold blen, slice. intros ???.
  rewrite length_take, length_drop. lia.
Qed.

Lemma slice_all b : slice b 0 (blen b) = b.
Proof. unfold slice, blen. rewrite Nat2Z.id. simpl. by rewrite firstn_all. Qed.

Lemma lookup_splice dst off src j :
  0 ≤ off → off + blen src ≤ blen dst →
  splice dst off src !! j =
    if decide (Z.of_nat j < off) then dst !! j
    else if decide (Z.of_nat j < off + blen src)
         then src !! (j - Z.to_nat off)%nat
         else dst !! j.
Proof.
  unfold splice, blen. intros ??.
  assert (length (take (Z.to_nat off) dst) = Z.to_nat off) as Hlen
    by (rewrite length_take; lia).
  repeat case_decide.
  - rewrite lookup_app_l by lia. by rewrite lookup_take_lt by lia.
  - rewrite lookup_app_r by lia. rewrite Hlen.
    by rewrite lookup_app_l by lia.
  - rewrite lookup_app_r by lia. rewrite Hlen.
    rewrite lookup_app_r by lia. rewrite lookup_drop. f_equal. lia.
Qed.

Lemma blen_splice dst off src :
  0 ≤ off → off + blen src ≤ blen dst → blen (splice dst off src) = blen dst.
Proof.
  unfold splice, blen. intros ??.
  rewrite !length_app, length_take, length_drop. lia.
Qed.

(** A splice leaves every slice that ends before it as it was. *)
Lemma slice_splice_before dst off src o n :
  0 ≤ o → 0 ≤ n → o + n ≤ off → off + blen src ≤ blen dst →
  slice (splice dst off src) o n = slice dst o n.
Proof.
  intros ????. apply list_eq. intros j.
  rewrite !lookup_slice by lia. case_decide; [|done].
  rewrite lookup_splice by lia. by rewrite decide_True by lia.
Qed.

(** Reading back what was spliced in. *)
Lemma slice_splice_same dst off src :
  0 ≤ off → off + blen src ≤ blen dst →
  slice (splice dst off src) off (blen src) = src.
Proof.
  intros ??. apply list_eq. intros j.
  rewrite lookup_slice by (unfold blen; lia). case_decide.
  - rewrite lookup_splice by lia.
    rewrite decide_False by lia. rewrite decide_True by lia.
    f_equal. lia.
  - symmetry. apply lookup_ge_None. unfold blen in *. lia.
Qed.

Lemma slice_app_l b1 b2 o n :
  0 ≤ o → 0 ≤ n → o + n ≤ blen b1 → slice (b1 ++ b2) o n = slice b1 o n.
Proof.
  intros ???. apply list_eq. intros j.
  rewrite !lookup_slice by lia. case_decide; [|done].
  apply lookup_app_l. unfold blen in *. lia.
Qed.

Lemma splice_0 dst src :
  splice dst 0 src = src ++ drop (length src) dst.
Proof. unfold splice. by rewrite take_0. Qed.
End blocks.

(** ** Well-formed lists *)

Lemma buffer_mk b s c e : buffer (mk_list (Some b) s c e) = b.
Proof. reflexivity. Qed.

Lemma buffer_set_data l b : buffer (set_data l (Some b)) = b.
Proof. reflexivity. Qed.

Lemma buffer_data l b : data l = Some b → buffer l = b.
Proof. unfold buffer. by intros ->. Qed.

Lemma wf_capacity l : wf l → capacity l ≤ SIZE_MAX.
Proof. intros [? ? ? _]. nia. Qed.

Lemma wf_blen l : wf l → blen (buffer l) = capacity l * elem_size l.
Proof.
  intros [_ _ _ Hd]. unfold buffer. destruct (data l); simpl.
  - tauto.
  - rewrite Hd. reflexivity.
Qed.

Lemma wf_offset l i :
  wf l → 0 ≤ i ≤ capacity l → size_t (i * elem_size l).
Proof. intros [? ? ? _] ?. unfold size_t. nia. Qed.

(** ** Initialisation *)

Lemma list_init_with_capacity_ok a l0 c es l :
  size_t c → size_t es →
  list_init_with_capacity a (Some l0) c es = (LIST_OK, Some l) →
  wf l ∧ size l = 0 ∧ capacity l = c ∧ elem_size l = es ∧
  buffer l = replicate (Z.to_nat (c * es)) x00.
Proof.
  unfold list_init_with_capacity, size_t. intros Hc Hes.
  destruct (Z.eqb_spec es 0); [done|].
  destruct (Z.eqb_spec c 0) as [->|].
  - intros [= <-]. cbn. split_and!; try done. split; cbn; lia.
  - cbn. unfold calloc.
    destruct (Z.leb_spec (c * es) SIZE_MAX); cbn; [|done].
    destruct (grants a (c * es)); [|done].
    intros [= <-]. cbn. split_and!; try done.
    split; cbn; try lia. rewrite blen_replicate; nia.
Qed.

(** ** Reallocation and resizing *)

Lemma realloc_shrink a buf n :
  0 < n ≤ blen buf →
  realloc a (Some buf) n =
    if grants a n then Returns (Some (take (Z.to_nat n) buf)) else Returns None.
Proof.
  intros ?. unfold realloc, blen in *. destruct (Z.eqb_spec n 0); [lia|].
  destruct (grants a n); [|done]. cbn.
  replace (Z.to_nat n - length buf)%nat with 0%nat by lia.
  cbn. by rewrite app_nil_r.
Qed.

Lemma realloc_grow a p n :
  0 < n → blen (default [] p) ≤ n →
  realloc a p n =
    if grants a n
    then Returns (Some (default [] p ++
                        junk a (Z.to_nat n - length (default [] p))))
    else Returns None.
Proof.
  intros ??. unfold realloc, blen in *. destruct (Z.eqb_spec n 0); [lia|].
  destruct (grants a n); [|done]. cbn.
  by rewrite take_ge by lia.
Qed.

Lemma splice_end b j r :
  length j = length r → splice (b ++ j) (blen b) r = b ++ r.
Proof.
  intros Hlen. unfold splice, blen. rewrite Nat2Z.id.
  rewrite take_app_length. rewrite <- Hlen, <- length_app.
  by rewrite drop_all, app_nil_r.
Qed.

(** A failed resize leaves the list as it was. *)
Lemma list_resize_fail a lst n st lst' :
  list_resize a lst n = Returns (st, lst') → st ≠ LIST_OK → lst' = lst.
Proof.
  unfold list_resize. destruct lst as [l|]; [|by intros [= <- <-]].
  destruct (n =? 0); [by intros [= <- <-]|].
  destruct (n =? capacity l); [by intros [= <- <-]|].
  unfold_bind. destruct (realloc _ _ _) as [|[blk|]]; [done| |by intros [= <- <-]].
  destruct (if capacity l <? n then _ else _); [done|].
  by intros [= <- <-].
Qed.

(** Resizing to a smaller, non-zero capacity. *)
Lemma list_resize_shrink a l n buf :
  wf l → data l = Some buf → 0 < n < capacity l →
  list_resize a (Some l) n =
    if grants a (n * elem_size l)
    then Returns (LIST_OK,
                  Some (mk_list (Some (take (Z.to_nat (n * elem_size l)) buf))
                                (if n <? size l then n else size l)
                                n (elem_size l)))
    else Returns (LIST_ERR_ALLOC, Some l).
Proof.
  intros [Hs He Hb Hlen] Hd Hn. rewrite Hd in Hlen. destruct Hlen as [_ Hlen].
  unfold list_resize.
  destruct (Z.eqb_spec n 0); [lia|].
  destruct (Z.eqb_spec n (capacity l)); [lia|].
  unfold size_mul.
  rewrite (wrap_small (n * elem_size l)) by (unfold size_t; nia).
  rewrite Hd, realloc_shrink by nia.
  destruct (grants a (n * elem_size l)); cbn; [|done].
  destruct (Z.ltb_spec (capacity l) n); [lia|]. cbn.
  by destruct (n <? size l).
Qed.

(** A failed grow leaves the list as it was. *)
Lemma list_grow_fail a l st lst' :
  list_grow a (Some l) = Returns (st, lst') → st ≠ LIST_OK → lst' = Some l.
Proof. apply list_resize_fail. Qed.

(** A grow that reports success either doubled the capacity and zero-filled
    the new half, or (only when twice the capacity does not fit a [size_t])
    wrapped around to a smaller capacity. *)
Lemma list_grow_ok a l lst' :
  wf l → list_grow a (Some l) = Returns (LIST_OK, lst') →
  (2 * capacity l ≤ SIZE_MAX ∧
   doubled (capacity l) * elem_size l ≤ SIZE_MAX ∧
   lst' = Some (mk_list
     (Some (buffer l ++
            replicate (Z.to_nat (doubled (capacity l) * elem_size l
                                 - capacity l * elem_size l)) x00))
     (size l) (doubled (capacity l)) (elem_size l)))
  ∨ (SIZE_MAX + 1 < 2 * capacity l ∧
     let c := 2 * capacity l - (SIZE_MAX + 1) in
     lst' = Some (mk_list
       (Some (take (Z.to_nat (c * elem_size l)) (buffer l)))
       (if c <? size l then c else size l) c (elem_size l))).
Proof.
  intros Hwf. pose proof (wf_blen l Hwf) as Hlen.
  pose proof (wf_capacity l Hwf) as Hcap.
  pose proof Hwf as [Hs He Hb Hd].
  unfold list_grow, doubled.
  destruct (Z.eqb_spec (capacity l) 0) as [Hc|Hc].
  - (* first allocation *)
    destruct (data l) as [buf|] eqn:Hdata; [lia|].
    unfold buffer in *. rewrite Hdata in *. cbn in Hlen.
    unfold list_resize. rewrite Hc, Hdata. cbn [Z.eqb].
    unfold size_mul, size_sub. rewrite Z.mul_0_l, Z.sub_0_r, !Z.mul_1_l.
    rewrite (wrap_small 0) by (unfold size_t, SIZE_MAX; lia).
    rewrite (wrap_small (elem_size l)) by (unfold size_t; lia).
    rewrite realloc_grow by (cbn; unfold blen; cbn; lia).
    destruct (grants a (elem_size l)); [|done]. unfold_bind. cbn [default app].
    unfold memset.
    destruct (in_bounds _ _ _) eqn:Hin; [|done].
    destruct (Z.ltb_spec 0 1); [|lia]. cbn [set_data set_capacity size data capacity elem_size].
    destruct (Z.ltb_spec 1 (size l)); [lia|].
    intros [= <-]. left. split_and!; try lia.
    unfold set_capacity, set_data. cbn. do 3 f_equal. rewrite Z.sub_0_r.
    apply (splice_end [] (junk _ _)).
    rewrite length_junk, length_replicate. lia.
  - destruct (data l) as [buf|] eqn:Hdata; [|lia].
    unfold buffer in *. rewrite Hdata in *.
    change (default [] (Some buf)) with buf in *.
    destruct (Z.le_gt_cases (2 * capacity l) SIZE_MAX) as [Hfit|Hover].
    + (* the doubled capacity fits *)
      unfold size_mul at 1. rewrite (Z.mul_comm (capacity l) 2).
      rewrite wrap_small by (unfold size_t; lia).
      unfold list_resize.
      destruct (Z.eqb_spec (2 * capacity l) 0); [lia|].
      destruct (Z.eqb_spec (2 * capacity l) (capacity l)); [lia|].
      rewrite Hdata. unfold size_sub.
      replace (2 * capacity l - capacity l) with (capacity l) by lia.
      destruct (Z.ltb_spec (capacity l) (2 * capacity l)); [|lia].
      unfold size_mul.
      rewrite (wrap_small (capacity l)) by (unfold size_t; lia).
      rewrite (wrap_small (capacity l * elem_size l)) by (unfold size_t; nia).
      destruct (Z.le_gt_cases (2 * capacity l * elem_size l) SIZE_MAX)
        as [Hfit'|Hover'].
      * rewrite wrap_small by (unfold size_t; nia).
        rewrite realloc_grow
          by (change (default [] (Some buf)) with buf; nia).
        change (default [] (Some buf)) with buf.
        destruct (grants a _); [|done]. unfold_bind.
        unfold memset. destruct (in_bounds _ _ _) eqn:Hin; [|done].
        cbn [set_data set_capacity size data capacity elem_size].
        destruct (Z.ltb_spec (2 * capacity l) (size l)); [lia|].
        intros [= <-]. left. split_and!; try lia.
        unfold set_capacity, set_data; cbn [data size capacity elem_size].
        rewrite <- Hlen, splice_end
          by (rewrite length_junk, length_replicate; unfold blen in *; lia).
        by replace (2 * capacity l * elem_size l - blen buf)
          with (blen buf) by lia.
      * (* the byte count wraps: the zero-fill runs off the block *)
        replace (2 * capacity l * elem_size l)
          with (2 * (capacity l * elem_size l)) by lia.
        rewrite wrap_double by nia.
        rewrite <- Hlen.
        unfold realloc.
        destruct (_ =? 0); [done|]. destruct (grants a _); [|done].
        unfold_bind. unfold memset.
        destruct (in_bounds _ _ _) eqn:Hin; [|done].
        apply in_bounds_true in Hin. rewrite blen_app, blen_junk in Hin.
        unfold blen in Hin. rewrite length_take in Hin.
        unfold blen, SIZE_MAX in *. lia.
    + destruct (Z.eq_dec (2 * capacity l) (SIZE_MAX + 1)) as [Heq|Hne].
      * (* twice the capacity wraps to zero: the resize is refused *)
        unfold size_mul. rewrite (Z.mul_comm (capacity l) 2), Heq.
        unfold wrap. rewrite Z.mod_same by (unfold SIZE_MAX; lia).
        cbn. done.
      * (* twice the capacity wraps to a smaller one *)
        unfold size_mul. rewrite (Z.mul_comm (capacity l) 2).
        rewrite wrap_double by lia.
        rewrite (list_resize_shrink a l _ buf) by (done || lia).
        destruct (grants a _); [|done].
        intros [= <-]. right. split; [lia|done].
Qed.

(** ** Push *)

(** A push that does not report success leaves the list as it was. *)
Lemma list_push_fail a lst value st lst' :
  list_push a lst value = Returns (st, lst') → st ≠ LIST_OK → lst' = lst.
Proof.
  unfold list_push. destruct lst as [l|]; [|by destruct value; intros [= <- <-]].
  destruct value as [v|]; [|by intros [= <- <-]].
  destruct (capacity l <=? size l); unfold_bind.
  - destruct (list_grow a (Some l)) as [|[st1 lst1]] eqn:Hg; [done|].
    destruct st1.
    + destruct lst1 as [l1|]; [|done]. destruct (data l1); [|done].
      destruct (memcpy _ _ _ _ _); [done|]. by intros [= <- <-].
    + intros [= <- <-] _. by eapply list_grow_fail.
    + intros [= <- <-] _. by eapply list_grow_fail.
    + intros [= <- <-] _. by eapply list_grow_fail.
  - destruct (data l); [|done].
    destruct (memcpy _ _ _ _ _); [done|]. by intros [= <- <-].
Qed.

(** A successful push, in full: the buffer is extended by a zero-filled
    half when the list was full, and the first [elem_size] bytes of the
    value are copied into the slot at the old [size]. *)
Lemma list_push_ok a l v lst' :
  wf l → list_push a (Some l) (Some v) = Returns (LIST_OK, lst') →
  push_capacity l * elem_size l ≤ SIZE_MAX ∧
  elem_size l ≤ blen v ∧
  lst' = Some (mk_list
    (Some (splice
      (buffer l ++
       replicate (Z.to_nat (push_capacity l * elem_size l
                            - capacity l * elem_size l)) x00)
      (size l * elem_size l) (slice v 0 (elem_size l))))
    (size l + 1) (push_capacity l) (elem_size l)).
Proof.
  intros Hwf. pose proof (wf_blen l Hwf) as Hlen.
  pose proof Hwf as [Hs He Hb Hd].
  unfold list_push, push_capacity.
  destruct (Z.leb_spec (capacity l) (size l)) as [Hfull|Hroom]; unfold_bind.
  - destruct (Z.ltb_spec (size l) (capacity l)); [lia|].
    assert (size l = capacity l) as Hsize by lia.
    destruct (list_grow a (Some l)) as [|[st1 lst1]] eqn:Hg; [done|].
    destruct st1; [|by intros [= <- <-]..].
    apply (list_grow_ok _ _ _ Hwf) in Hg as [(Hfit & Hfit' & ->)|(Hover & ->)].
    + cbn [data size capacity elem_size set_data set_size].
      unfold size_mul, size_add, memcpy.
      rewrite wrap_small by (apply wf_offset; [done|lia]).
      assert (size l + 1 ≤ doubled (capacity l))
        by (unfold doubled; destruct (Z.eqb_spec (capacity l) 0); lia).
      rewrite wrap_small by (unfold size_t; nia).
      destruct (in_bounds _ _ _ && in_bounds _ _ _) eqn:Hin; [|done].
      apply andb_true_iff in Hin as [_ Hin%in_bounds_true].
      intros [= <-]. split_and!; [done|lia|done].
    + cbn [data size capacity elem_size set_data set_size].
      destruct (Z.ltb_spec (2 * capacity l - (SIZE_MAX + 1)) (size l));
        [|unfold SIZE_MAX in *; lia].
      unfold size_mul, memcpy.
      rewrite wrap_small by (unfold size_t; nia).
      destruct (in_bounds _ _ _) eqn:Hin; [|done].
      apply in_bounds_true in Hin. unfold blen in Hin, Hlen.
      rewrite length_take in Hin. lia.
  - destruct (Z.ltb_spec (size l) (capacity l)); [|lia].
    destruct (data l) as [buf|] eqn:Hdata; [|done].
    unfold buffer in *. rewrite Hdata in *.
    change (default [] (Some buf)) with buf in *.
    unfold size_mul, size_add, memcpy, set_size, set_data.
    cbn [data size capacity elem_size].
    rewrite wrap_small by (apply wf_offset; [done|lia]).
    rewrite wrap_small by (unfold size_t; nia).
    destruct (in_bounds _ _ _ && in_bounds _ _ _) eqn:Hin; [|done].
    apply andb_true_iff in Hin as [_ Hin%in_bounds_true].
    intros [= <-]. split_and!; [done|lia|].
    cbn [data size capacity elem_size set_data set_size].
    by rewrite Z.sub_diag, app_nil_r.
Qed.

Lemma push_capacity_bounds l :
  wf l → capacity l ≤ push_capacity l ∧ size l < push_capacity l.
Proof.
  intros [Hs _ _ _]. unfold push_capacity, doubled.
  destruct (Z.ltb_spec (size l) (capacity l)); [lia|].
  destruct (Z.eqb_spec (capacity l) 0); lia.
Qed.

(** What a successful push does to the list and to its element slots. *)
Lemma list_push_slots a l v l' :
  wf l → list_push a (Some l) (Some v) = Returns (LIST_OK, Some l') →
  wf l' ∧ size l' = size l + 1 ∧ elem_size l' = elem_size l ∧
  capacity l' = push_capacity l ∧
  slot l' (size l) = slice v 0 (elem_size l) ∧
  ∀ i, 0 ≤ i < size l → slot l' i = slot l i.
Proof.
  intros Hwf Hpush. pose proof (wf_blen l Hwf) as Hlen.
  pose proof (push_capacity_bounds l Hwf) as [Hc1 Hc2].
  pose proof Hwf as [Hs He Hb _].
  apply list_push_ok in Hpush as (Hfit & Hv & [= ->]); [|done].
  set (zeros := replicate _ x00) in *.
  assert (blen zeros
          = push_capacity l * elem_size l - capacity l * elem_size l) as Hz
    by (apply blen_replicate; nia).
  assert (blen (slice v 0 (elem_size l)) = elem_size l) as Hsl
    by (apply blen_slice; lia).
  assert (size l * elem_size l + elem_size l
          ≤ push_capacity l * elem_size l) by nia.
  unfold slot at 1 2. rewrite !buffer_mk. cbn [data size capacity elem_size].
  split_and!; try done.
  - split; cbn [data size capacity elem_size]; try lia.
    split; [lia|]. rewrite blen_splice; rewrite ?blen_app; nia.
  - pose proof (slice_splice_same (buffer l ++ zeros)
                  (size l * elem_size l) (slice v 0 (elem_size l))) as Hsame.
    rewrite Hsl in Hsame. apply Hsame; rewrite ?blen_app; nia.
  - intros i Hi. rewrite slice_splice_before; rewrite ?blen_app; try nia.
    apply slice_app_l; nia.
Qed.

Lemma list_push_wf a l value st l' :
  wf l → list_push a (Some l) value = Returns (st, Some l') → wf l'.
Proof.
  intros Hwf Hpush.
  destruct (decide (st = LIST_OK)) as [->|Hst].
  - destruct value as [v|]; [|discriminate].
    by apply list_push_slots in Hpush as [? _].
  - apply list_push_fail in Hpush; [|done]. by simplify_eq.
Qed.

(** A run of successful pushes keeps the elements already stored and
    stores the pushed values in order after them. *)
Lemma push_all_slots ps : ∀ l l',
  wf l → push_all ps l = Some l' →
  wf l' ∧ size l' = size l + Z.of_nat (length ps) ∧
  elem_size l' = elem_size l ∧
  (∀ i, 0 ≤ i < size l → slot l' i = slot l i) ∧
  (∀ (j : nat) a v, ps !! j = Some (a, v) →
     slot l' (size l + Z.of_nat j) = slice v 0 (elem_size l)).
Proof.
  induction ps as [|[a v] ps IH]; intros l l' Hwf Hall.
  - injection Hall as <-. cbn. split_and!; try done; lia.
  - cbn [push_all] in Hall.
    destruct (list_push a (Some l) (Some v)) as [|[[] [l1|]]] eqn:Hpush;
      try done.
    apply list_push_slots in Hpush as (Hwf1 & Hs1 & He1 & _ & Hnew & Hold);
      [|done].
    destruct (IH _ _ Hwf1 Hall) as (Hwf' & Hs' & He' & Hold' & Hnew').
    pose proof Hwf as [Hs _ _ _].
    split_and!; [done|cbn [length]; lia|congruence| |].
    + intros i Hi. rewrite Hold' by lia. by apply Hold.
    + intros [|j] b w Hj.
      * injection Hj as <- <-. rewrite Z.add_0_r, Hold' by lia. done.
      * rewrite <- He1. replace (size l + Z.of_nat (S j))
          with (size l1 + Z.of_nat j) by lia.
        by eapply Hnew'.
Qed.

(** ** Get *)

Lemma list_get_ok l i out :
  wf l → 0 ≤ i < size l → elem_size l ≤ blen out →
  list_get (Some l) i (Some out) =
    Returns (LIST_OK, Some (slot l i ++ drop (Z.to_nat (elem_size l)) out)).
Proof.
  intros Hwf Hi Hout. pose proof (wf_blen l Hwf) as Hlen.
  pose proof Hwf as [Hs He Hb Hd]. unfold list_get, slot.
  destruct (data l) as [buf|] eqn:Hdata; [|lia].
  rewrite (buffer_data l buf Hdata) in *.
  destruct (Z.leb_spec (size l) i); [lia|].
  unfold size_mul, memcpy.
  rewrite wrap_small by (apply wf_offset; [done|lia]).
  assert (in_bounds out 0 (elem_size l) = true) as ->
    by (apply in_bounds_true; lia).
  assert (in_bounds buf (i * elem_size l) (elem_size l) = true) as ->
    by (apply in_bounds_true; nia).
  unfold_bind. cbn [andb]. rewrite splice_0. do 4 f_equal.
  pose proof (blen_slice buf (i * elem_size l) (elem_size l)) as Hsl.
  unfold blen in Hsl at 2. f_equal. nia.
Qed.

(** C1. Round trip: after any run of successful pushes of values
    [v0 .. v(n-1)] into a freshly initialised list, [list_get] at index [i]
    succeeds and writes the [elem_size] bytes of [vi] into the output block
    (and nothing else); with blocks of exactly [elem_size] bytes the output
    is [vi] itself. *)
Theorem push_get_roundtrip a0 l0 c es l ps l' (i : nat) a v out :
  size_t c → size_t es →
  list_init_with_capacity a0 (Some l0) c es = (LIST_OK, Some l) →
  push_all ps l = Some l' →
  ps !! i = Some (a, v) →
  es ≤ blen out →
  list_get (Some l') (Z.of_nat i) (Some out)
    = Returns (LIST_OK, Some (slice v 0 es ++ drop (Z.to_nat es) out)) ∧
  (blen v = es → blen out = es →
   list_get (Some l') (Z.of_nat i) (Some out) = Returns (LIST_OK, Some v)).
Proof.
  intros Hc Hes Hinit Hall Hi Hout.
  apply list_init_with_capacity_ok in Hinit as (Hwf & Hs & _ & He & _);
    [|done..].
  apply push_all_slots in Hall as (Hwf' & Hs' & He' & _ & Hnew); [|done].
  specialize (Hnew i a v Hi). rewrite Hs, Z.add_0_l, He in Hnew.
  apply lookup_lt_Some in Hi as Hlt.
  assert (list_get (Some l') (Z.of_nat i) (Some out)
          = Returns (LIST_OK, Some (slice v 0 es ++ drop (Z.to_nat es) out)))
    as Hget.
  { rewrite list_get_ok; [|done|lia..]. rewrite Hnew. by rewrite He', He. }
  split; [done|]. intros Hv Ho. rewrite Hget. do 3 f_equal.
  rewrite <- Hv at 1. rewrite slice_all.
  rewrite drop_ge by (unfold blen in *; lia). apply app_nil_r.
Qed.

(** ** Pop *)

(** [list_pop] on a non-empty well-formed list, in full. *)
Lemma list_pop_spec a l buf out :
  wf l → data l = Some buf → 0 < size l →
  let l1 := set_size l (size l - 1) in
  list_pop a (Some l) out =
    out' ← copy_out buf (size l1 * elem_size l) (elem_size l) out;
    if shrinks l1 then
      if grants a (capacity l / 2 * elem_size l) then
        Returns (LIST_OK,
                 Some (mk_list
                   (Some (take (Z.to_nat (capacity l / 2 * elem_size l)) buf))
                   (size l1) (capacity l / 2) (elem_size l)),
                 out')
      else Returns (LIST_ERR_ALLOC, Some l1, out')
    else Returns (LIST_OK, Some l1, out').
Proof.
  intros Hwf Hdata Hpos l1. pose proof Hwf as [Hs He Hb Hd].
  assert (wf l1) as Hwf1 by (split; cbn; try done; lia).
  unfold list_pop. rewrite Hdata.
  destruct (Z.eqb_spec (size l) 0); [lia|].
  unfold size_sub, size_mul.
  rewrite wrap_small by (unfold size_t; nia). fold l1.
  rewrite wrap_small by (apply wf_offset; cbn; [done|lia]).
  unfold copy_out, shrinks. cbn [capacity elem_size l1 set_size].
  unfold_bind.
  destruct out as [o|]; [destruct (memcpy o _ _ _ _) as [|o']; [done|]|].
  all: destruct (Z.ltb_spec 1 (capacity l)); cbn [andb]; [|done].
  all: destruct (Z.ltb_spec (size l1) (capacity l / 4)) as [Hq|]; [|done].
  all: cbn in Hq.
  all: assert (1 ≤ capacity l / 2 < capacity l)
      by (split; [apply Z.div_le_lower_bound|apply Z.div_lt_upper_bound]; lia).
  all: destruct (Z.ltb_spec (capacity l / 2) 1); [lia|].
  all: assert (capacity l / 4 ≤ capacity l / 2)
      by (apply Z.div_le_lower_bound; [lia|];
          pose proof (Z.mul_div_le (capacity l) 4); lia).
  all: rewrite (list_resize_shrink a l1 _ buf) by (done || cbn; lia).
  all: cbn [size capacity elem_size set_size]; unfold l1; cbn [size set_size].
  all: destruct (grants a _); [|done].
  all: by destruct (Z.ltb_spec (capacity l / 2) (size l - 1)); [lia|].
Qed.

Lemma copy_out_ok buf off n out :
  0 ≤ off → 0 ≤ n → off + n ≤ blen buf →
  (∀ o, out = Some o → n ≤ blen o) →
  copy_out buf off n out =
    Returns ((λ o, slice buf off n ++ drop (Z.to_nat n) o) <$> out).
Proof.
  intros ??? Hout. destruct out as [o|]; [|done].
  specialize (Hout o eq_refl). unfold copy_out, memcpy.
  assert (in_bounds o 0 n = true) as -> by (apply in_bounds_true; lia).
  assert (in_bounds buf off n = true) as -> by (apply in_bounds_true; lia).
  unfold_bind. cbn [andb fmap option_fmap option_map]. rewrite splice_0.
  do 4 f_equal. pose proof (blen_slice buf off n) as Hsl.
  unfold blen in Hsl at 2. lia.
Qed.

(** A pop that does not report [LIST_ERR_INVALID] found a buffer and at
    least one element. *)
Lemma list_pop_valid a l out st lst' out' :
  wf l → list_pop a (Some l) out = Returns (st, lst', out') →
  st ≠ LIST_ERR_INVALID → ∃ buf, data l = Some buf ∧ 0 < size l.
Proof.
  intros [Hs _ _ _]. unfold list_pop.
  destruct (data l) as [buf|]; [|by intros [= <- _ _]].
  destruct (Z.eqb_spec (size l) 0); [by intros [= <- _ _]|].
  intros _ _. exists buf. split; [done|lia].
Qed.

Lemma list_pop_wf a l out st l' out' :
  wf l → list_pop a (Some l) out = Returns (st, Some l', out') → wf l'.
Proof.
  intros Hwf Hpop. pose proof Hwf as [Hs He Hb Hd].
  destruct (data l) as [buf|] eqn:Hdata;
    [destruct (decide (size l = 0)) as [Hz|Hnz]|].
  - unfold list_pop in Hpop. rewrite Hdata, Hz in Hpop. by simplify_eq/=.
  - rewrite (list_pop_spec a l buf out Hwf Hdata) in Hpop by lia.
    assert (wf (set_size l (size l - 1))) as Hwf1
      by (split; cbn; rewrite ?Hdata; try done; lia).
    revert Hpop. unfold_bind. destruct (copy_out _ _ _ _); [done|].
    unfold shrinks. cbn [size capacity set_size].
    destruct (Z.ltb_spec 1 (capacity l)); cbn [andb]; [|by intros [= _ <- _]].
    destruct (Z.ltb_spec (size l - 1) (capacity l / 4)); [|by intros [= _ <- _]].
    destruct (grants a _); [|by intros [= _ <- _]].
    intros [= _ <- _].
    assert (1 ≤ capacity l / 2 < capacity l)
      by (split; [apply Z.div_le_lower_bound|apply Z.div_lt_upper_bound]; lia).
    assert (capacity l / 4 ≤ capacity l / 2)
      by (apply Z.div_le_lower_bound; [lia|];
          pose proof (Z.mul_div_le (capacity l) 4); lia).
    split; cbn; try lia; try nia.
    split; [lia|]. unfold blen in *. rewrite length_take. nia.
  - unfold list_pop in Hpop. rewrite Hdata in Hpop. by simplify_eq/=.
Qed.

(** C4. A pop that removes an element attempts a shrink exactly when the
    state after the decrement has [capacity > 1] and [size < capacity / 4]:
    it then asks the allocator for [max (1, capacity / 2)] elements and,
    when that is granted, returns [LIST_OK] with the capacity at
    [max (1, capacity / 2)]; when the condition fails it returns [LIST_OK]
    without consulting the allocator and the capacity is as it was (as it
    is when the shrink is refused, where the pop returns [LIST_ERR_ALLOC]).
    Hence a pop that returned [LIST_OK] changed the capacity exactly when
    the condition held. *)
Theorem pop_shrink_rule a l out :
  wf l →
  let shrink := (1 <? capacity l) && (size l - 1 <? capacity l / 4) in
  let new_capacity := Z.max 1 (capacity l / 2) in
  let removed :=
    (λ o, slot l (size l - 1) ++ drop (Z.to_nat (elem_size l)) o) <$> out in
  (0 < size l → (∀ o, out = Some o → elem_size l ≤ blen o) →
   list_pop a (Some l) out =
     if shrink then
       if grants a (new_capacity * elem_size l) then
         Returns (LIST_OK,
                  Some (mk_list
                    (Some (take (Z.to_nat (new_capacity * elem_size l))
                                (buffer l)))
                    (size l - 1) new_capacity (elem_size l)),
                  removed)
       else Returns (LIST_ERR_ALLOC, Some (set_size l (size l - 1)), removed)
     else Returns (LIST_OK, Some (set_size l (size l - 1)), removed)) ∧
  (∀ l' out',
     list_pop a (Some l) out = Returns (LIST_OK, Some l', out') →
     size l' = size l - 1 ∧
     capacity l' = (if shrink then new_capacity else capacity l) ∧
     (capacity l' ≠ capacity l ↔
      1 < capacity l ∧ size l - 1 < capacity l / 4)).
Proof.
  intros Hwf. cbv zeta. pose proof Hwf as [Hs He Hb Hd]. split.
  - intros Hpos Hout. pose proof (wf_blen l Hwf) as Hlen.
    destruct (data l) as [buf|] eqn:Hdata; [|lia].
    rewrite (buffer_data l buf Hdata) in *.
    pose proof (list_pop_spec a l buf out Hwf Hdata Hpos) as Hpop.
    cbn [size set_size] in Hpop.
    rewrite copy_out_ok in Hpop by (done || nia).
    unfold mbind, outcome_bind, shrinks in Hpop.
    cbn [size capacity set_size] in Hpop. rewrite Hpop.
    unfold slot. rewrite (buffer_data l buf Hdata).
    destruct (Z.ltb_spec 1 (capacity l)); cbn [andb]; [|done].
    assert (1 ≤ capacity l / 2) by (apply Z.div_le_lower_bound; lia).
    by rewrite Z.max_r by lia.
  - intros l' out' Hpop.
    destruct (list_pop_valid _ _ _ _ _ _ Hwf Hpop) as (buf & Hdata & Hpos);
      [done|].
    rewrite (list_pop_spec a l buf out Hwf Hdata Hpos) in Hpop.
    revert Hpop. unfold_bind. destruct (copy_out _ _ _ _); [done|].
    unfold shrinks. cbn [size capacity set_size].
    destruct (Z.ltb_spec 1 (capacity l)); cbn [andb];
      [|intros [= <- _]; cbn; split_and!; [done..|lia]].
    destruct (Z.ltb_spec (size l - 1) (capacity l / 4));
      [|intros [= <- _]; cbn; split_and!; [done..|lia]].
    destruct (grants a _); [|done]. intros [= <- _]. cbn.
    assert (1 ≤ capacity l / 2 < capacity l)
      by (split; [apply Z.div_le_lower_bound|apply Z.div_lt_upper_bound];
          lia).
    split_and!; [done|lia|lia].
Qed.

(** C5. When the shrink attempted by a pop fails (the allocator refuses the
    reallocation), [list_pop] returns [LIST_ERR_ALLOC], yet [size] has been
    decremented and the removed element has been copied to the output block
    when one was supplied: nothing is rolled back. *)
Theorem pop_shrink_failure a l buf out :
  wf l → data l = Some buf → 0 < size l →
  shrinks (set_size l (size l - 1)) = true →
  grants a (capacity l / 2 * elem_size l) = false →
  (∀ o, out = Some o → elem_size l ≤ blen o) →
  list_pop a (Some l) out =
    Returns (LIST_ERR_ALLOC,
             Some (set_size l (size l - 1)),
             (λ o, slot l (size l - 1) ++ drop (Z.to_nat (elem_size l)) o)
               <$> out).
Proof.
  intros Hwf Hdata Hpos Hshrink Hfail Hout.
  pose proof (wf_blen l Hwf) as Hlen. pose proof Hwf as [Hs He Hb _].
  rewrite (list_pop_spec a l buf out Hwf Hdata Hpos).
  rewrite Hshrink, Hfail. cbn [size set_size].
  rewrite (buffer_data l buf Hdata) in Hlen.
  rewrite copy_out_ok by (done || nia).
  unfold slot. by rewrite (buffer_data l buf Hdata).
Qed.

(** ** Set *)

(** A slice is determined by the bytes it covers. *)
Lemma slice_ext b b' off n :
  0 ≤ off → 0 ≤ n →
  (∀ j : nat, off ≤ Z.of_nat j < off + n → b' !! j = b !! j) →
  slice b' off n = slice b off n.
Proof.
  intros ?? Hbytes. apply list_eq. intros j.
  rewrite !lookup_slice by lia. case_decide; [|done]. apply Hbytes. lia.
Qed.

(** A successful [list_set], in full. *)
Lemma list_set_ok l buf index v lst' :
  wf l → data l = Some buf → 0 ≤ index < size l →
  list_set (Some l) index (Some v) = Returns (LIST_OK, lst') →
  elem_size l ≤ blen v ∧
  lst' = Some (set_data l (Some (splice buf (index * elem_size l)
                                        (slice v 0 (elem_size l))))).
Proof.
  intros Hwf Hdata Hi. unfold list_set. rewrite Hdata.
  destruct (Z.leb_spec (size l) index); [lia|].
  unfold size_mul, memcpy.
  rewrite wrap_small by (apply wf_offset; [done|destruct Hwf; lia]).
  destruct (in_bounds buf _ _ && in_bounds v _ _) eqn:Hin; [|done].
  apply andb_true_iff in Hin as [_ Hv%in_bounds_true].
  unfold_bind. intros [= <-]. split; [lia|done].
Qed.

(** A [list_set] that does not report success leaves the list as it was. *)
Lemma list_set_fail lst index value st lst' :
  list_set lst index value = Returns (st, lst') → st ≠ LIST_OK → lst' = lst.
Proof.
  unfold list_set. destruct lst as [l|]; [|by intros [= <- <-]].
  destruct (data l); [|by intros [= <- <-]].
  destruct (size l <=? index); [by intros [= <- <-]|].
  destruct value; [|done]. unfold_bind.
  destruct (memcpy _ _ _ _ _); [done|]. by intros [= <- <-].
Qed.

(** Writing an element leaves every byte outside its slot as it was. *)
Lemma splice_slot_frame l buf index v (j : nat) :
  wf l → data l = Some buf → 0 ≤ index < size l → elem_size l ≤ blen v →
  Z.of_nat j < index * elem_size l ∨
  index * elem_size l + elem_size l ≤ Z.of_nat j →
  splice buf (index * elem_size l) (slice v 0 (elem_size l)) !! j = buf !! j.
Proof.
  intros Hwf Hdata Hi Hv Hj. pose proof (wf_blen l Hwf) as Hlen.
  rewrite (buffer_data l buf Hdata) in Hlen. destruct Hwf as [Hs He Hb _].
  assert (blen (slice v 0 (elem_size l)) = elem_size l) as Hnew
    by (apply blen_slice; lia).
  rewrite lookup_splice by nia. rewrite Hnew.
  repeat case_decide; try done; lia.
Qed.

Lemma list_set_free_region l index value st l' :
  wf l → 0 ≤ index →
  list_set (Some l) index value = Returns (st, Some l') →
  free_region l' = free_region l.
Proof.
  intros Hwf Hi Hset. destruct (decide (st = LIST_OK)) as [->|Hst];
    [|apply list_set_fail in Hset; [by simplify_eq|done]].
  pose proof Hwf as [Hs He Hb Hd].
  assert (index < size l ∧ ∃ v, value = Some v) as [Hlt [v ->]].
  { revert Hset. unfold list_set. destruct (data l); [|done].
    destruct (Z.leb_spec (size l) index); [done|].
    destruct value; [|done]. eauto. }
  destruct (data l) as [buf|] eqn:Hdata; [|lia].
  pose proof (list_set_ok l buf index v _ Hwf Hdata (conj Hi Hlt) Hset)
    as [Hv [= ->]].
  unfold free_region. cbn [set_data size capacity elem_size].
  rewrite buffer_set_data, (buffer_data l buf Hdata).
  apply slice_ext; [nia|nia|]. intros j Hj.
  apply (splice_slot_frame l); [done|done|lia|done|nia].
Qed.

(** C10. A successful [list_set] at an index below [size] changes nothing
    but the [elem_size] bytes of that element: the fields [size], [capacity]
    and [elem_size], the presence and length of the buffer, every byte
    outside the element's slot, hence every other element and the free
    region, are as before. *)
Theorem list_set_frame l index v l' :
  wf l → 0 ≤ index < size l →
  list_set (Some l) index (Some v) = Returns (LIST_OK, Some l') →
  size l' = size l ∧ capacity l' = capacity l ∧ elem_size l' = elem_size l ∧
  (∃ buf buf', data l = Some buf ∧ data l' = Some buf' ∧
     length buf' = length buf ∧
     ∀ j : nat,
       Z.of_nat j < index * elem_size l ∨
       index * elem_size l + elem_size l ≤ Z.of_nat j →
       buf' !! j = buf !! j) ∧
  (∀ k, 0 ≤ k → k ≠ index → slot l' k = slot l k) ∧
  free_region l' = free_region l.
Proof.
  intros Hwf Hi Hset. pose proof (wf_blen l Hwf) as Hlen.
  pose proof Hwf as [Hs He Hb Hd].
  destruct (data l) as [buf|] eqn:Hdata; [|lia].
  rewrite (buffer_data l buf Hdata) in Hlen.
  pose proof (list_set_free_region _ _ _ _ _ Hwf (proj1 Hi) Hset) as Hfree.
  pose proof (list_set_ok l buf index v _ Hwf Hdata Hi Hset) as [Hv Heq].
  injection Heq as Heq. subst l'.
  cbn [set_data data size capacity elem_size].
  set (new := slice v 0 (elem_size l)) in *.
  assert (blen new = elem_size l) as Hnew by (apply blen_slice; lia).
  split_and!; try done.
  - exists buf, (splice buf (index * elem_size l) new). split_and!; try done.
    + pose proof (blen_splice buf (index * elem_size l) new) as Hsp.
      unfold blen in Hsp at 3 4. apply Nat2Z.inj, Hsp; nia.
    + intros j Hj. by apply (splice_slot_frame l).
  - intros k Hk Hne. unfold slot. cbn [set_data elem_size].
    rewrite buffer_set_data, (buffer_data l buf Hdata).
    apply slice_ext; [nia|lia|]. intros j Hj.
    apply (splice_slot_frame l); [done..|nia].
Qed.

(** C9. A list initialised with capacity 0 has no buffer, and the
    missing-buffer check of [list_get] and [list_set] comes before their
    bounds check: both return [LIST_ERR_INVALID] for every index, whereas an
    empty list initialised with a non-zero capacity returns
    [LIST_OUT_OF_BOUNDS] for index 0. *)
Theorem missing_buffer_precedence a l0 es l :
  size_t es →
  list_init_with_capacity a (Some l0) 0 es = (LIST_OK, Some l) →
  (∀ index out,
     list_get (Some l) index out = Returns (LIST_ERR_INVALID, out)) ∧
  (∀ index value,
     list_set (Some l) index value = Returns (LIST_ERR_INVALID, Some l)) ∧
  (∀ a' l0' c l2 out value,
     size_t c → 0 < c →
     list_init_with_capacity a' (Some l0') c es = (LIST_OK, Some l2) →
     list_get (Some l2) 0 (Some out) = Returns (LIST_OUT_OF_BOUNDS, Some out) ∧
     list_set (Some l2) 0 value = Returns (LIST_OUT_OF_BOUNDS, Some l2)).
Proof.
  intros Hes Hinit.
  assert (data l = None) as Hnone.
  { revert Hinit. unfold list_init_with_capacity.
    destruct (es =? 0); [done|]. cbn. by intros [= <-]. }
  split_and!.
  - intros index out. unfold list_get. rewrite Hnone. by destruct out.
  - intros index value. unfold list_set. by rewrite Hnone.
  - intros a' l0' c l2 out value Hc Hpos Hinit2.
    apply list_init_with_capacity_ok in Hinit2
      as (Hwf & Hs & Hcap & _ & _); [|done..].
    pose proof Hwf as [_ _ _ Hd].
    unfold list_get, list_set.
    destruct (data l2); [|lia]. by rewrite Hs.
Qed.

Lemma one_elem_pushed :
  list_push always (Some test_list) (Some (int32 5))
  = Returns (LIST_OK, Some one_elem).
Proof. by vm_compute. Qed.

(** [list_set] does not check its value pointer: with a buffer present, a
    null value is either rejected by the bounds check or read through. *)
Lemma list_set_null_value l buf index :
  data l = Some buf →
  list_set (Some l) index None =
    if size l <=? index then Returns (LIST_OUT_OF_BOUNDS, Some l)
    else Undefined.
Proof. intros Hdata. unfold list_set. by rewrite Hdata. Qed.

(** C7. [list_get] and [list_push] reject a null pointer argument with
    [LIST_ERR_INVALID]; [list_set] given a null value on the same list
    reads through the null pointer for an index in range and returns
    [LIST_OUT_OF_BOUNDS] for an index out of range. *)
Example list_set_null_value_unchecked :
  list_get (Some one_elem) 0 None = Returns (LIST_ERR_INVALID, None) ∧
  list_push always (Some one_elem) None
    = Returns (LIST_ERR_INVALID, Some one_elem) ∧
  list_set (Some one_elem) 0 None = Undefined ∧
  list_set (Some one_elem) 1 None
    = Returns (LIST_OUT_OF_BOUNDS, Some one_elem).
Proof. by vm_compute. Qed.

(** ** Destroy *)

(** C8, as the claim states it, fails: the lists left by [list_destroy]
    differ in [elem_size], so there is no single empty state to which every
    field is reset. *)
Lemma list_destroy_keeps_elem_size :
  (list_destroy (Some one_elem)).1 = Some (mk_list None 0 0 4) ∧
  ¬ (∃ empty, ∀ l, (list_destroy (Some l)).1 = Some empty).
Proof.
  split; [by vm_compute|]. intros [empty Hall].
  pose proof (Hall (mk_list None 0 0 4)) as H4.
  pose proof (Hall (mk_list None 0 0 8)) as H8.
  by simplify_eq/=.
Qed.

(** C8, amended. [list_destroy] hands the buffer to [free], clears the
    buffer pointer and sets [size] and [capacity] to 0, leaving [elem_size]
    as it was; on a null list it does nothing; destroying again releases
    nothing and leaves the same state. *)
Theorem list_destroy_idempotent l :
  list_destroy (Some l) = (Some (mk_list None 0 0 (elem_size l)), data l) ∧
  list_destroy None = (None, None) ∧
  list_destroy (list_destroy (Some l)).1 = ((list_destroy (Some l)).1, None).
Proof. repeat split. Qed.

(** ** Reachable states *)

Lemma list_set_wf l index value st l' :
  wf l → list_set (Some l) index value = Returns (st, Some l') → wf l'.
Proof.
  intros Hwf. pose proof Hwf as [Hs He Hb Hd]. unfold list_set.
  destruct (data l) as [buf|] eqn:Hdata; [|by intros [= _ <-]].
  destruct (size l <=? index); [by intros [= _ <-]|].
  destruct value as [v|]; [|done]. unfold memcpy.
  destruct (in_bounds buf _ _ && in_bounds v _ _) eqn:Hin; [|done].
  apply andb_true_iff in Hin as [Hb1%in_bounds_true Hb2%in_bounds_true].
  unfold_bind. intros [= _ <-].
  split; cbn [set_data data size capacity elem_size]; try done.
  split; [lia|]. rewrite blen_splice; [lia..|].
  rewrite blen_slice; lia.
Qed.

Lemma list_clear_wf l l' : wf l → list_clear (Some l) = Some l' → wf l'.
Proof.
  intros [Hs He Hb Hd] [= <-]. split; cbn; try done. lia.
Qed.

Lemma list_destroy_wf l l' :
  wf l → (list_destroy (Some l)).1 = Some l' → wf l'.
Proof.
  intros [Hs He Hb Hd] [= <-]. split; cbn; try done; lia.
Qed.

Lemma list_init_with_capacity_wf a l c es st l' :
  wf l → size_t c → size_t es →
  list_init_with_capacity a (Some l) c es = (st, Some l') → wf l'.
Proof.
  intros Hwf Hc Hes Hinit. destruct (decide (st = LIST_OK)) as [->|Hst].
  - by apply list_init_with_capacity_ok in Hinit as [? _].
  - revert Hinit. unfold list_init_with_capacity, size_t in *.
    destruct (Z.eqb_spec es 0); [by intros [= _ <-]|].
    destruct (c =? 0); [by intros [= <- _]|]. cbn.
    destruct (calloc a c es); [by intros [= <- _]|].
    intros [= _ <-]. split; cbn; lia.
Qed.

Lemma reachable_wf l : reachable l → wf l.
Proof.
  induction 1 as [a l0 c es l Hc Hes Hinit
                 |a l c es st l' _ IH Hc Hes Hinit| | | | |].
  - by apply list_init_with_capacity_ok in Hinit as [? _].
  - exact (list_init_with_capacity_wf a l c es st l' IH Hc Hes Hinit).
  - by eapply list_push_wf.
  - by eapply list_pop_wf.
  - by eapply list_set_wf.
  - by eapply list_clear_wf.
  - by eapply list_destroy_wf.
Qed.

(** C2. Every reachable state of a successfully initialised list satisfies
    [size <= capacity], and its capacity is 0 exactly when it has no buffer;
    since the reachable states are closed under every public operation,
    each of them preserves this. *)
Theorem reachable_invariant l :
  reachable l →
  size l ≤ capacity l ∧ (capacity l = 0 ↔ data l = None).
Proof.
  intros [Hs _ _ Hd]%reachable_wf. split; [lia|].
  destruct (data l); [|done]. split; [lia|done].
Qed.

(** ** Growth *)

Lemma next_pow2_smallest k : 1 ≤ k → smallest_pow2_ge k (next_pow2 k).
Proof.
  intros Hk. unfold next_pow2.
  pose proof (Z.log2_up_nonneg k) as He.
  split_and!.
  - by exists (Z.log2_up k).
  - destruct (decide (k = 1)) as [->|]; [done|].
    apply Z.log2_up_spec. lia.
  - intros p (f & Hf & ->) Hp.
    destruct (decide (k = 1)) as [->|]; [cbn; lia|].
    apply Z.pow_le_mono_r; [lia|].
    pose proof (Z.log2_up_spec k) as [Hlow _]; [lia|].
    assert (Z.pred (Z.log2_up k) < f); [|lia].
    apply (Z.pow_lt_mono_r_iff 2); lia.
Qed.

Lemma next_pow2_step s :
  0 < s →
  next_pow2 (s + 1) =
    if s <? next_pow2 s then next_pow2 s else 2 * next_pow2 s.
Proof.
  intros Hs. unfold next_pow2.
  pose proof (Z.log2_up_nonneg s) as He.
  assert (s ≤ 2 ^ Z.log2_up s) as Hup.
  { destruct (decide (s = 1)) as [->|]; [done|]. apply Z.log2_up_spec. lia. }
  destruct (Z.ltb_spec s (2 ^ Z.log2_up s)) as [Hlt|Hge].
  - assert (s ≠ 1) by (intros ->; cbn in Hlt; lia).
    pose proof (Z.log2_up_spec s) as [Hlow _]; [lia|].
    assert (0 < Z.log2_up s) by (apply Z.log2_up_pos; lia).
    f_equal. apply Z.log2_up_unique; lia.
  - rewrite <- Z.pow_succ_r by done. f_equal.
    apply Z.log2_up_unique; [lia|].
    rewrite Z.pred_succ, Z.pow_succ_r by done. lia.
Qed.

Lemma list_push_doubling a l v l' :
  wf l → doubling l →
  list_push a (Some l) (Some v) = Returns (LIST_OK, Some l') →
  doubling l'.
Proof.
  intros Hwf Hdbl Hpush. pose proof Hwf as [Hs _ _ _].
  apply list_push_slots in Hpush as (_ & Hs' & _ & Hc' & _); [|done].
  right. split; [lia|]. rewrite Hs', Hc'. unfold push_capacity, doubled.
  destruct Hdbl as [[-> ->]|[Hpos Hcap]]; [done|].
  rewrite next_pow2_step by done. rewrite Hcap.
  destruct (Z.ltb_spec (size l) (next_pow2 (size l))); [done|].
  destruct (Z.eqb_spec (next_pow2 (size l)) 0); [lia|done].
Qed.

Lemma push_all_doubling ps : ∀ l l',
  wf l → doubling l → push_all ps l = Some l' → doubling l'.
Proof.
  induction ps as [|[a v] ps IH]; intros l l' Hwf Hdbl Hall.
  - by injection Hall as <-.
  - cbn [push_all] in Hall.
    destruct (list_push a (Some l) (Some v)) as [|[[] [l1|]]] eqn:Hpush;
      try done.
    eapply IH; [|by eapply list_push_doubling|done].
    by eapply list_push_wf.
Qed.

(** C3. Starting from a list initialised with capacity 0, a run of [k >= 1]
    successful pushes leaves the capacity at the smallest power of two that
    is at least [k]; and in every state of such a run (before the first push
    too) a grow that succeeds sets the capacity to 1 when it was 0 and to
    twice its value otherwise, so that the capacity goes 0, 1, 2, 4, 8, ... *)
Theorem growth_doubling a0 l0 es l ps l' :
  size_t es →
  list_init_with_capacity a0 (Some l0) 0 es = (LIST_OK, Some l) →
  push_all ps l = Some l' →
  ((1 ≤ length ps)%nat →
   capacity l' = next_pow2 (Z.of_nat (length ps)) ∧
   smallest_pow2_ge (Z.of_nat (length ps)) (capacity l')) ∧
  (∀ a lst'',
     list_grow a (Some l') = Returns (LIST_OK, lst'') →
     ∃ l'', lst'' = Some l'' ∧
       capacity l'' = if capacity l' =? 0 then 1 else 2 * capacity l').
Proof.
  intros Hes Hinit Hall.
  apply list_init_with_capacity_ok in Hinit as (Hwf & Hs & Hc & _);
    [|done|done].
  assert (doubling l) as Hdbl by (by left).
  pose proof (push_all_doubling _ _ _ Hwf Hdbl Hall) as Hdbl'.
  apply push_all_slots in Hall as (Hwf' & Hs' & _); [|done].
  rewrite Hs, Z.add_0_l in Hs'. split.
  - intros Hk. destruct Hdbl' as [[? _]|[_ Hcap]]; [lia|].
    rewrite Hs' in Hcap. split; [done|].
    rewrite Hcap. apply next_pow2_smallest. lia.
  - intros a lst'' Hgrow.
    apply (list_grow_ok _ _ _ Hwf') in Hgrow as [(_ & _ & ->)|[Hover _]].
    + eexists. split; [done|]. done.
    + exfalso. pose proof (wf_capacity l' Hwf') as Hmax.
      destruct Hdbl' as [[_ Hz]|[_ Hcap]]; [lia|].
      unfold next_pow2 in Hcap.
      pose proof (Z.log2_up_nonneg (size l')) as He.
      assert (Z.log2_up (size l') < 64) as Hlt.
      { apply (Z.pow_lt_mono_r_iff 2); [lia..|].
        unfold SIZE_MAX in Hmax. lia. }
      assert (2 ^ Z.succ (Z.log2_up (size l')) ≤ 2 ^ 64) as Hle
        by (apply Z.pow_le_mono_r; lia).
      rewrite Z.pow_succ_r in Hle by done. unfold SIZE_MAX in Hover. lia.
Qed.

(** ** The free region *)

Lemma free_zero_lookup l :
  wf l →
  free_zero l ↔
  ∀ (j : nat) c,
    size l * elem_size l ≤ Z.of_nat j → buffer l !! j = Some c → c = x00.
Proof.
  intros Hwf. pose proof (wf_blen l Hwf) as Hlen.
  destruct Hwf as [Hs He Hb _].
  unfold free_zero, free_region. rewrite Forall_lookup. split.
  - intros Hz j c Hj Hc. apply lookup_lt_Some in Hc as Hlt.
    apply (Hz (j - Z.to_nat (size l * elem_size l))%nat).
    rewrite lookup_slice by nia. unfold blen in Hlen.
    rewrite decide_True by nia. rewrite <- Hc. f_equal. nia.
  - intros Hz i c. rewrite lookup_slice by nia.
    case_decide; [|done]. apply Hz. nia.
Qed.

Lemma list_init_free_zero a l0 c es l :
  size_t c → size_t es →
  list_init_with_capacity a (Some l0) c es = (LIST_OK, Some l) →
  free_zero l.
Proof.
  intros Hc Hes Hinit.
  apply list_init_with_capacity_ok in Hinit as (Hwf & _ & _ & _ & Hbuf);
    [|done..].
  apply free_zero_lookup; [done|]. intros j b _. rewrite Hbuf.
  by intros [-> _]%lookup_replicate.
Qed.

Lemma list_push_free_zero a l value st l' :
  wf l → free_zero l →
  list_push a (Some l) value = Returns (st, Some l') →
  free_zero l'.
Proof.
  intros Hwf Hz Hpush. destruct (decide (st = LIST_OK)) as [->|Hst];
    [|apply list_push_fail in Hpush; [by simplify_eq|done]].
  destruct value as [v|]; [|done].
  pose proof (list_push_wf _ _ _ _ _ Hwf Hpush) as Hwf'.
  pose proof (wf_blen l Hwf) as Hlen. unfold blen in Hlen.
  pose proof (push_capacity_bounds l Hwf) as [Hc1 Hc2].
  pose proof Hwf as [Hs He Hb _].
  apply list_push_ok in Hpush as (Hfit & Hv & [= ->]); [|done].
  rewrite free_zero_lookup in Hz by done.
  apply free_zero_lookup; [done|]. cbn [size elem_size]. rewrite buffer_mk.
  assert (blen (slice v 0 (elem_size l)) = elem_size l) as Hnew
    by (apply blen_slice; lia).
  intros j c Hj. rewrite lookup_splice;
    [|nia|rewrite Hnew, blen_app, blen_replicate; unfold blen; nia].
  rewrite Hnew. rewrite decide_False by nia. rewrite decide_False by nia.
  intros [Hold|[_ Hzero]]%lookup_app_Some.
  - apply (Hz j); [nia|done].
  - by apply lookup_replicate in Hzero as [-> _].
Qed.

Lemma list_destroy_free_zero l l' :
  (list_destroy (Some l)).1 = Some l' → free_zero l'.
Proof. intros [= <-]. apply Forall_nil_2. Qed.

Lemma unpopped_reachable l : unpopped l → reachable l.
Proof.
  induction 1 as [a l0 c es l Hc Hes Hinit
                 |a l value st l' _ IH Hpush
                 |l index value st l' _ IH Hi Hset
                 |l l' _ IH Hdestroy].
  - exact (reach_init a l0 c es l Hc Hes Hinit).
  - exact (reach_push a l value st l' IH Hpush).
  - exact (reach_set l index value st l' IH Hi Hset).
  - exact (reach_destroy l l' IH Hdestroy).
Qed.

Lemma unpopped_free_zero l : unpopped l → free_zero l.
Proof.
  induction 1 as [a l0 c es l Hc Hes Hinit
                 |a l value st l' Hl IH Hpush
                 |l index value st l' Hl IH Hi Hset
                 |l l' _ _ Hdestroy].
  - exact (list_init_free_zero a l0 c es l Hc Hes Hinit).
  - apply (list_push_free_zero a l value st l'); [|done..].
    by apply reachable_wf, unpopped_reachable.
  - unfold free_zero.
    rewrite (list_set_free_region l index value st l'); [done| |apply Hi|done].
    by apply reachable_wf, unpopped_reachable.
  - exact (list_destroy_free_zero l l' Hdestroy).
Qed.

(** What [list_pop] leaves of the buffer is a prefix of what it found. *)
Lemma list_pop_buffer a l out st l' out' :
  wf l → list_pop a (Some l) out = Returns (st, Some l', out') →
  buffer l' `prefix_of` buffer l.
Proof.
  intros Hwf Hpop. pose proof Hwf as [Hs _ _ _].
  destruct (data l) as [buf|] eqn:Hdata;
    [destruct (decide (size l = 0)) as [Hz|Hnz]|].
  - unfold list_pop in Hpop. rewrite Hdata, Hz in Hpop. by simplify_eq/=.
  - rewrite (list_pop_spec a l buf out Hwf Hdata) in Hpop by lia.
    revert Hpop. unfold_bind. destruct (copy_out _ _ _ _); [done|].
    destruct (shrinks _); [|by intros [= _ <- _]].
    destruct (grants a _); [|by intros [= _ <- _]].
    intros [= _ <- _]. rewrite buffer_mk, (buffer_data l buf Hdata).
    apply prefix_take.
  - unfold list_pop in Hpop. rewrite Hdata in Hpop. by simplify_eq/=.
Qed.

Lemma size_t_small z : 0 ≤ z ≤ 1000 → size_t z.
Proof. unfold size_t, SIZE_MAX. lia. Qed.

Lemma test_list_init :
  list_init_with_capacity always (Some blank) 0 4 = (LIST_OK, Some test_list).
Proof. by vm_compute. Qed.

Lemma test_list_reachable : reachable test_list.
Proof.
  apply (reach_init always blank 0 4);
    [apply size_t_small; lia..|exact test_list_init].
Qed.

Lemma one_elem_reachable : reachable one_elem.
Proof.
  exact (reach_push always test_list (Some (int32 5)) LIST_OK one_elem
           test_list_reachable one_elem_pushed).
Qed.

(** C6, as the claim states it, fails: popping the only element of
    [one_elem], or clearing it, returns successfully and leaves the bytes of
    the freed slot in the buffer, at element offset [size = 0] below
    [capacity = 1]. *)
Lemma free_region_stale_after_pop_and_clear :
  list_pop always (Some one_elem) None
    = Returns (LIST_OK, Some freed_elem, None) ∧
  list_clear (Some one_elem) = Some freed_elem ∧
  reachable freed_elem ∧
  free_region freed_elem = int32 5 ∧
  ¬ free_zero freed_elem.
Proof.
  split_and!; try (by vm_compute).
  - apply (reach_clear one_elem freed_elem one_elem_reachable).
    by vm_compute.
  - intros Hz. by apply Forall_cons_1 in Hz as [? _].
Qed.

(** C6, amended. As long as no [list_pop] and no [list_clear] has run on a
    list since its initialisation, the bytes at element offsets
    [size, capacity) are zero after every operation: initialisation
    allocates zeroed memory and growth zero-fills the new region.
    [list_clear] and [list_pop] do not zero the slots they free: clear
    leaves the buffer as it is, and pop leaves of it a prefix, unchanged. *)
Theorem free_region_zero_until_freed l :
  reachable l →
  (unpopped l → free_zero l) ∧
  (∀ l', list_clear (Some l) = Some l' → buffer l' = buffer l) ∧
  (∀ a out st l' out',
     list_pop a (Some l) out = Returns (st, Some l', out') →
     buffer l' `prefix_of` buffer l).
Proof.
  intros Hwf%reachable_wf. split_and!.
  - apply unpopped_free_zero.
  - by intros l' [= <-].
  - intros a out st l' out'. by apply list_pop_buffer.
Qed.

(** * Replaying tests/test_list.c *)

Example int32_representation :
  int32 (-1) = [xff; xff; xff; xff] ∧ int32 256 = [x00; x01; x00; x00] ∧
  int32 90 = [x5a; x00; x00; x00].
Proof. by vm_compute. Qed.

Example test_list_init_sets_defaults :
  list_init always (Some blank) 4 = (LIST_OK, Some test_list) ∧
  data test_list = None ∧ size test_list = 0 ∧ capacity test_list = 0 ∧
  elem_size test_list = 4.
Proof. by vm_compute. Qed.

Example test_list_push_and_get_value :
  let pushed := list_push always (Some test_list) (Some (int32 123)) in
  fst <$> pushed = Returns LIST_OK ∧
  list_size ∘ snd <$> pushed = Returns 1 ∧
  then_get pushed 0 (int32 0) = Returns (LIST_OK, Some (int32 123)).
Proof. by vm_compute. Qed.

Example test_list_push_and_pop_value :
  ('(_, lst) ← list_push always (Some test_list) (Some (int32 123));
   '(st, lst, out) ← list_pop always lst (Some (int32 0));
   Returns (st, list_size lst, out))
  = Returns (LIST_OK, 0, Some (int32 123)).
Proof. by vm_compute. Qed.

Example test_list_populates_and_resizes_when_needed :
  populate_list_with_data test_list = Some populated ∧
  size populated = 10 ∧ capacity populated = 16.
Proof. by vm_compute. Qed.

Example test_list_get_returns_value_at_index :
  list_get (Some populated) 7 (Some (int32 (-1)))
  = Returns (LIST_OK, Some (int32 70)).
Proof. by vm_compute. Qed.

Example test_list_get_returns_error_when_index_out_of_bounds :
  list_get (Some populated) 15 (Some (int32 (-1)))
  = Returns (LIST_OUT_OF_BOUNDS, Some (int32 (-1))).
Proof. by vm_compute. Qed.

Example test_list_set_sets_value_at_index :
  let set := list_set (Some populated) 7 (Some (int32 123)) in
  fst <$> set = Returns LIST_OK ∧
  then_get set 7 (int32 (-1)) = Returns (LIST_OK, Some (int32 123)).
Proof. by vm_compute. Qed.

Example test_list_set_returns_error_when_index_out_of_bounds :
  list_set (Some populated) 15 (Some (int32 0))
  = Returns (LIST_OUT_OF_BOUNDS, Some populated).
Proof. by vm_compute. Qed.

Example test_list_clear_empties_list :
  list_size (list_clear (Some populated)) = 0 ∧
  list_capacity (list_clear (Some populated)) = 16.
Proof. by vm_compute. Qed.

(** The capacities along the ten pushes of [populate_list_with_data]. *)
Example capacity_progression :
  (λ k, capacity <$> push_all (take k ten_values) test_list) <$> seq 0 11
  = Some <$> [0; 1; 2; 4; 4; 8; 8; 8; 8; 16; 16].
Proof. by vm_compute. Qed.

(** * Instances on concrete lists *)

Lemma populated_pushed : push_all ten_values test_list = Some populated.
Proof. by vm_compute. Qed.

Lemma push_all_unpopped ps : ∀ l l',
  unpopped l → push_all ps l = Some l' → unpopped l'.
Proof.
  induction ps as [|[a v] ps IH]; intros l l' Hl Hps.
  - by injection Hps as <-.
  - cbn [push_all] in Hps.
    destruct (list_push a (Some l) (Some v)) as [|[[] [l1|]]] eqn:Hpush;
      try done.
    eapply IH; [|done]. by eapply unpopped_push.
Qed.

Lemma populated_unpopped : unpopped populated.
Proof.
  eapply (push_all_unpopped _ test_list populated); [|exact populated_pushed].
  apply (unpopped_init always blank 0 4);
    [apply size_t_small; lia..|exact test_list_init].
Qed.

Lemma populated_reachable : reachable populated.
Proof. apply unpopped_reachable, populated_unpopped. Qed.

Lemma eight_slots_init :
  list_init_with_capacity always (Some blank) 8 1 = (LIST_OK, Some eight_slots).
Proof. by vm_compute. Qed.

Lemma sparse_pushed :
  push_all [(always, [x01]); (always, [x02])] eight_slots = Some sparse.
Proof. by vm_compute. Qed.

Lemma sparse_wf : wf sparse.
Proof.
  apply reachable_wf, unpopped_reachable.
  eapply (push_all_unpopped _ eight_slots sparse); [|exact sparse_pushed].
  apply (unpopped_init always blank 8 1);
    [apply size_t_small; lia..|exact eight_slots_init].
Qed.

Lemma sparse_popped :
  list_pop always (Some sparse) None = Returns (LIST_OK, Some shrunk, None).
Proof. by vm_compute. Qed.

Lemma populated_updated :
  list_set (Some populated) 7 (Some (int32 123))
  = Returns (LIST_OK, Some updated).
Proof. by vm_compute. Qed.

Lemma push_get_roundtrip_witness :
  list_get (Some populated) 7 (Some (int32 (-1)))
  = Returns (LIST_OK, Some (int32 70)).
Proof.
  apply (push_get_roundtrip always blank 0 4 test_list ten_values
           populated 7 always (int32 70) (int32 (-1)));
    [apply size_t_small; lia|apply size_t_small; lia
    |exact test_list_init|exact populated_pushed|(by vm_compute)..].
Defined.

Lemma reachable_invariant_witness :
  size populated ≤ capacity populated ∧
  (capacity populated = 0 ↔ data populated = None).
Proof. exact (reachable_invariant populated populated_reachable). Defined.

Lemma growth_doubling_witness :
  capacity populated = next_pow2 10 ∧
  smallest_pow2_ge 10 (capacity populated).
Proof.
  apply (proj1 (growth_doubling always blank 4 test_list ten_values populated
                  (size_t_small 4 ltac:(lia)) test_list_init populated_pushed)).
  cbn. lia.
Defined.

Lemma pop_shrink_rule_witness :
  list_pop always (Some sparse) None = Returns (LIST_OK, Some shrunk, None) ∧
  list_pop never (Some sparse) None
    = Returns (LIST_ERR_ALLOC, Some (set_size sparse 1), None) ∧
  list_pop never (Some populated) None
    = Returns (LIST_OK, Some (set_size populated 9), None).
Proof.
  split_and!.
  - rewrite (proj1 (pop_shrink_rule always sparse None sparse_wf));
      by vm_compute.
  - rewrite (proj1 (pop_shrink_rule never sparse None sparse_wf));
      by vm_compute.
  - rewrite (proj1 (pop_shrink_rule never populated None
                      (reachable_wf _ populated_reachable)));
      by vm_compute.
Defined.

Lemma pop_shrink_failure_witness :
  list_pop never (Some sparse) (Some [xff])
  = Returns (LIST_ERR_ALLOC, Some (set_size sparse 1), Some [x02]).
Proof.
  apply (pop_shrink_failure never sparse ([x01; x02] ++ replicate 6 x00)
           (Some [xff]) sparse_wf); [(by vm_compute)..|].
  intros o [= <-]. by vm_compute.
Defined.

Lemma free_region_zero_until_freed_witness :
  free_zero populated.
Proof.
  exact (proj1 (free_region_zero_until_freed populated populated_reachable)
               populated_unpopped).
Defined.

Lemma missing_buffer_precedence_witness :
  list_get (Some test_list) 0 (Some (int32 0))
    = Returns (LIST_ERR_INVALID, Some (int32 0)) ∧
  list_set (Some test_list) 0 (Some (int32 0))
    = Returns (LIST_ERR_INVALID, Some test_list) ∧
  list_get (Some eight_slots) 0 (Some (int32 0))
    = Returns (LIST_OUT_OF_BOUNDS, Some (int32 0)).
Proof.
  pose proof (missing_buffer_precedence always blank 4 test_list
                (size_t_small 4 ltac:(lia)) test_list_init)
    as (Hget & Hset & _).
  pose proof (missing_buffer_precedence always blank 1
                (mk_list None 0 0 1) (size_t_small 1 ltac:(lia))
                ltac:(by vm_compute))
    as (_ & _ & Hoob).
  split_and!; [apply Hget|apply Hset|].
  apply (Hoob always blank 8 eight_slots (int32 0) None);
    [apply size_t_small; lia|lia|exact eight_slots_init].
Defined.

Lemma list_set_frame_witness :
  size updated = size populated ∧
  slot updated 6 = slot populated 6 ∧
  free_region updated = free_region populated.
Proof.
  pose proof (list_set_frame populated 7 (int32 123) updated
                (reachable_wf _ populated_reachable) ltac:(by vm_compute)
                populated_updated)
    as (Hsize & _ & _ & _ & Hslot & Hfree).
  split_and!; [exact Hsize|apply Hslot; lia|exact Hfree].
Defined.

(** * Further properties of the list functions *)

(** ** Growing and pushing, forwards *)

(** [list_grow] when the doubled byte count fits a [size_t]: the outcome is
    decided by the allocator alone. *)
Lemma list_grow_fits a l :
  wf l → doubled (capacity l) * elem_size l ≤ SIZE_MAX →
  list_grow a (Some l) =
    if grants a (doubled (capacity l) * elem_size l)
    then Returns (LIST_OK, Some (mk_list
           (Some (buffer l ++
                  replicate (Z.to_nat (doubled (capacity l) * elem_size l
                                       - capacity l * elem_size l)) x00))
           (size l) (doubled (capacity l)) (elem_size l)))
    else Returns (LIST_ERR_ALLOC, Some l).
Proof.
  intros Hwf Hfit. pose proof (wf_blen l Hwf) as Hlen.
  pose proof Hwf as [Hs He Hb Hd]. revert Hfit.
  unfold list_grow, doubled, list_resize.
  destruct (Z.eqb_spec (capacity l) 0) as [Hc|Hc]; intros Hfit.
  - destruct (data l) as [buf|] eqn:Hdata; [lia|].
    unfold buffer in *. rewrite Hdata in *. rewrite Hc. cbn [Z.eqb].
    unfold size_mul, size_sub. rewrite Z.mul_0_l, Z.sub_0_r, !Z.mul_1_l.
    rewrite (wrap_small 0) by (unfold size_t, SIZE_MAX; lia).
    rewrite (wrap_small (elem_size l)) by (unfold size_t; lia).
    rewrite realloc_grow by (cbn; unfold blen; cbn; lia).
    destruct (grants a (elem_size l)); [|done]. unfold_bind.
    cbn [default app]. unfold memset.
    assert (in_bounds (junk a (Z.to_nat (elem_size l) - length []))
              0 (elem_size l) = true) as ->.
    { apply in_bounds_true. rewrite blen_junk. cbn. lia. }
    destruct (Z.ltb_spec 0 1); [|lia].
    cbn [set_data set_capacity size data capacity elem_size].
    destruct (Z.ltb_spec 1 (size l)); [lia|].
    unfold set_capacity, set_data. cbn. do 5 f_equal. rewrite Z.sub_0_r.
    apply (splice_end [] (junk _ _)).
    rewrite length_junk, length_replicate. lia.
  - destruct (data l) as [buf|] eqn:Hdata; [|lia].
    unfold buffer in *. rewrite Hdata in *.
    change (default [] (Some buf)) with buf in *.
    unfold size_sub, size_mul. rewrite (Z.mul_comm (capacity l) 2).
    rewrite (wrap_small (2 * capacity l)) by (unfold size_t; nia).
    replace (2 * capacity l - capacity l) with (capacity l) by lia.
    rewrite (wrap_small (capacity l)) by (unfold size_t; nia).
    rewrite (wrap_small (capacity l * elem_size l)) by (unfold size_t; nia).
    rewrite wrap_small by (unfold size_t; nia).
    destruct (Z.eqb_spec (2 * capacity l) 0); [lia|].
    destruct (Z.eqb_spec (2 * capacity l) (capacity l)); [lia|].
    rewrite realloc_grow
      by (change (default [] (Some buf)) with buf; nia).
    change (default [] (Some buf)) with buf.
    destruct (grants a _); [|done]. unfold_bind.
    destruct (Z.ltb_spec (capacity l) (2 * capacity l)); [|lia].
    unfold memset.
    assert (in_bounds
              (buf ++ junk a (Z.to_nat (2 * capacity l * elem_size l)
                              - length buf))
              (capacity l * elem_size l) (capacity l * elem_size l) = true)
      as ->.
    { apply in_bounds_true. rewrite blen_app, blen_junk.
      unfold blen in *. nia. }
    cbn [set_data set_capacity size data capacity elem_size].
    destruct (Z.ltb_spec (2 * capacity l) (size l)); [lia|].
    unfold set_capacity, set_data; cbn [data size capacity elem_size].
    rewrite <- Hlen, splice_end
      by (rewrite length_junk, length_replicate; unfold blen in *; lia).
    by replace (2 * capacity l * elem_size l - blen buf)
      with (blen buf) by lia.
Qed.

Lemma list_push_room a l v :
  wf l → size l < capacity l → elem_size l ≤ blen v →
  list_push a (Some l) (Some v) =
    Returns (LIST_OK, Some (mk_list
      (Some (splice (buffer l) (size l * elem_size l)
                    (slice v 0 (elem_size l))))
      (size l + 1) (capacity l) (elem_size l))).
Proof.
  intros Hwf Hroom Hv. pose proof (wf_blen l Hwf) as Hlen.
  pose proof Hwf as [Hs He Hb Hd]. unfold list_push.
  destruct (Z.leb_spec (capacity l) (size l)); [lia|]. unfold_bind.
  destruct (data l) as [buf|] eqn:Hdata; [|lia].
  rewrite (buffer_data l buf Hdata) in *.
  unfold size_mul, size_add, memcpy, set_size, set_data.
  cbn [data size capacity elem_size].
  rewrite wrap_small by (apply wf_offset; [done|lia]).
  rewrite wrap_small by (unfold size_t; nia).
  assert (in_bounds buf (size l * elem_size l) (elem_size l) = true) as ->
    by (apply in_bounds_true; nia).
  assert (in_bounds v 0 (elem_size l) = true) as ->
    by (apply in_bounds_true; lia).
  done.
Qed.

Lemma list_push_full a l v :
  wf l → size l = capacity l →
  doubled (capacity l) * elem_size l ≤ SIZE_MAX →
  grants a (doubled (capacity l) * elem_size l) = false ∨
    elem_size l ≤ blen v →
  list_push a (Some l) (Some v) =
    if grants a (doubled (capacity l) * elem_size l)
    then Returns (LIST_OK, Some (mk_list
           (Some (splice
              (buffer l ++
               replicate (Z.to_nat (doubled (capacity l) * elem_size l
                                    - capacity l * elem_size l)) x00)
              (size l * elem_size l) (slice v 0 (elem_size l))))
           (size l + 1) (doubled (capacity l)) (elem_size l)))
    else Returns (LIST_ERR_ALLOC, Some l).
Proof.
  intros Hwf Hfull Hfit Hv. pose proof (wf_blen l Hwf) as Hlen.
  pose proof Hwf as [Hs He Hb Hd]. unfold list_push.
  destruct (Z.leb_spec (capacity l) (size l)); [|lia].
  rewrite (list_grow_fits a l Hwf Hfit).
  destruct (grants a _); [|done].
  destruct Hv as [|Hv]; [done|]. unfold_bind.
  cbn [data size capacity elem_size].
  assert (capacity l < doubled (capacity l)) as Hdbl
    by (unfold doubled; destruct (Z.eqb_spec (capacity l) 0); lia).
  unfold size_mul, size_add, memcpy, set_size, set_data.
  cbn [data size capacity elem_size].
  rewrite wrap_small by (apply wf_offset; [done|lia]).
  rewrite wrap_small by (unfold size_t; nia).
  assert (in_bounds v 0 (elem_size l) = true) as ->
    by (apply in_bounds_true; lia).
  rewrite andb_true_r.
  match goal with |- context [in_bounds ?b ?o ?n] =>
    assert (in_bounds b o n = true) as -> end.
  { apply in_bounds_true. rewrite blen_app, blen_replicate; nia. }
  done.
Qed.

(** ** Popping, forwards *)

Lemma slice_take b m o n :
  0 ≤ o → 0 ≤ n → o + n ≤ m →
  slice (take (Z.to_nat m) b) o n = slice b o n.
Proof.
  intros ???. apply list_eq. intros j.
  rewrite !lookup_slice by lia. case_decide; [|done].
  apply lookup_take_lt. lia.
Qed.

(** [list_pop] on a non-empty well-formed list, with a large enough output
    block when one is given: what it returns and what it leaves. *)
Lemma list_pop_total a l out :
  wf l → 0 < size l →
  (∀ o, out = Some o → elem_size l ≤ blen o) →
  ∃ st l',
    list_pop a (Some l) out =
      Returns (st, Some l',
               (λ o, slot l (size l - 1) ++ drop (Z.to_nat (elem_size l)) o)
                 <$> out) ∧
    (st = LIST_OK ∨ st = LIST_ERR_ALLOC ∧ l' = set_size l (size l - 1)) ∧
    wf l' ∧ size l' = size l - 1 ∧ elem_size l' = elem_size l ∧
    1 ≤ capacity l' ≤ capacity l ∧
    (shrinks (set_size l (size l - 1)) = false →
     st = LIST_OK ∧ l' = set_size l (size l - 1)) ∧
    ∀ i, 0 ≤ i < size l - 1 → slot l' i = slot l i.
Proof.
  intros Hwf Hpos Hout. pose proof (wf_blen l Hwf) as Hlen.
  pose proof Hwf as [Hs He Hb Hd].
  destruct (data l) as [buf|] eqn:Hdata; [|lia].
  rewrite (buffer_data l buf Hdata) in Hlen.
  pose proof (list_pop_spec a l buf out Hwf Hdata Hpos) as Hpop.
  cbn [size set_size] in Hpop.
  rewrite copy_out_ok in Hpop by (done || nia).
  unfold mbind, outcome_bind in Hpop.
  assert (slice buf ((size l - 1) * elem_size l) (elem_size l)
          = slot l (size l - 1)) as Hslot
    by (unfold slot; by rewrite (buffer_data l buf Hdata)).
  rewrite Hslot in Hpop.
  assert (wf (set_size l (size l - 1))) as Hwf1
    by (split; cbn; rewrite ?Hdata; try done; lia).
  destruct (shrinks _) eqn:Hshrink; [destruct (grants a _)|].
  - (* the list shrinks *)
    eexists _, _. split; [exact Hpop|].
    pose proof (list_pop_wf _ _ _ _ _ _ Hwf Hpop) as Hwf'.
    apply andb_true_iff in Hshrink as [Hc%Z.ltb_lt Hq%Z.ltb_lt].
    cbn [size capacity set_size] in Hc, Hq.
    assert (1 ≤ capacity l / 2 < capacity l)
      by (split; [apply Z.div_le_lower_bound|apply Z.div_lt_upper_bound]; lia).
    assert (4 * (capacity l / 4) ≤ capacity l)
      by (apply Z.mul_div_le; lia).
    assert (capacity l ≤ 2 * (capacity l / 2) + 1)
      by (pose proof (Z.div_mod (capacity l) 2);
          pose proof (Z.mod_pos_bound (capacity l) 2); lia).
    split_and!; cbn [size capacity elem_size]; try done; try lia; [by left|].
    intros i Hi. unfold slot. rewrite buffer_mk, (buffer_data l buf Hdata).
    cbn [elem_size]. apply slice_take; nia.
  - (* the shrink is refused *)
    eexists _, _. split; [exact Hpop|].
    split_and!; cbn [size capacity elem_size set_size]; try done; try lia.
    by right.
  - (* no shrink *)
    eexists _, _. split; [exact Hpop|].
    split_and!; cbn [size capacity elem_size set_size]; try done; try lia.
    by left.
Qed.

(** ** Push *)

(** X1. A successful push appends: [size] grows by one, the value's
    [elem_size] bytes are stored at the old [size], every element stored
    before is unchanged, [elem_size] is unchanged and the list stays well
    formed. *)
Theorem list_push_appends a l v l' :
  wf l → list_push a (Some l) (Some v) = Returns (LIST_OK, Some l') →
  wf l' ∧ size l' = size l + 1 ∧ elem_size l' = elem_size l ∧
  slot l' (size l) = slice v 0 (elem_size l) ∧
  ∀ i, 0 ≤ i < size l → slot l' i = slot l i.
Proof.
  intros Hwf Hpush.
  apply list_push_slots in Hpush as (? & ? & ? & _ & ? & ?); done.
Qed.

(** X2. A push that returns anything but [LIST_OK] leaves the list exactly
    as it was, whatever the allocator did. *)
Theorem list_push_failure_unchanged a lst value st lst' :
  list_push a lst value = Returns (st, lst') → st ≠ LIST_OK → lst' = lst.
Proof. apply list_push_fail. Qed.

(** X3. A push into a list with a free slot never consults the allocator:
    whatever it would answer, the push succeeds, the capacity and the buffer
    length stay as they are and only the slot at [size] is written. *)
Theorem list_push_without_allocation a l v :
  wf l → size l < capacity l → elem_size l ≤ blen v →
  ∃ l', list_push a (Some l) (Some v) = Returns (LIST_OK, Some l') ∧
        list_push never (Some l) (Some v) = Returns (LIST_OK, Some l') ∧
        capacity l' = capacity l ∧ size l' = size l + 1 ∧
        blen (buffer l') = blen (buffer l) ∧
        buffer l' = splice (buffer l) (size l * elem_size l)
                           (slice v 0 (elem_size l)).
Proof.
  intros Hwf Hroom Hv. pose proof (wf_blen l Hwf) as Hlen.
  pose proof Hwf as [Hs He Hb _].
  eexists. rewrite !list_push_room by done. split_and!; try done.
  rewrite buffer_mk, blen_splice; [done|nia|].
  rewrite blen_slice; nia.
Qed.

(** X4. A push into a full list whose doubled byte count fits a [size_t]
    is decided by the allocator: when the reallocation is refused the push
    returns [LIST_ERR_ALLOC] and the list is as it was; when it is granted
    the push returns [LIST_OK] with the doubled capacity. *)
Theorem list_push_full_list a l v :
  wf l → size l = capacity l →
  doubled (capacity l) * elem_size l ≤ SIZE_MAX →
  elem_size l ≤ blen v →
  (grants a (doubled (capacity l) * elem_size l) = false →
   list_push a (Some l) (Some v) = Returns (LIST_ERR_ALLOC, Some l)) ∧
  (grants a (doubled (capacity l) * elem_size l) = true →
   ∃ l', list_push a (Some l) (Some v) = Returns (LIST_OK, Some l') ∧
         capacity l' = doubled (capacity l) ∧ size l' = size l + 1).
Proof.
  intros Hwf Hfull Hfit Hv.
  rewrite (list_push_full a l v Hwf Hfull Hfit (or_intror Hv)).
  split; intros ->; [done|]. by eexists.
Qed.

(** X5. A push into a full list of capacity 2^63 returns
    [LIST_ERR_INVALID] without consulting the allocator and leaves the list
    as it was: [capacity * 2] wraps to 0, which [list_resize] rejects as an
    invalid argument. *)
Theorem list_push_capacity_limit a l v :
  capacity l = 2 ^ 63 → capacity l ≤ size l →
  list_push a (Some l) (Some v) = Returns (LIST_ERR_INVALID, Some l).
Proof.
  intros Hcap Hfull. unfold list_push.
  destruct (Z.leb_spec (capacity l) (size l)); [|lia].
  unfold list_grow. rewrite Hcap. by vm_compute.
Qed.

(** X6. After a push that had to grow the list, the bytes at element
    offsets [size, capacity) are zero, whatever was popped or cleared
    before. *)
Theorem list_push_grown_free_zero a l v l' :
  wf l → size l = capacity l →
  list_push a (Some l) (Some v) = Returns (LIST_OK, Some l') →
  free_zero l'.
Proof.
  intros Hwf Hfull Hpush.
  pose proof (list_push_wf _ _ _ _ _ Hwf Hpush) as Hwf'.
  pose proof (wf_blen l Hwf) as Hlen. unfold blen in Hlen.
  pose proof (push_capacity_bounds l Hwf) as [Hc1 Hc2].
  pose proof Hwf as [Hs He Hb _].
  apply list_push_ok in Hpush as (Hfit & Hv & [= ->]); [|done].
  apply free_zero_lookup; [done|]. cbn [size elem_size]. rewrite buffer_mk.
  assert (blen (slice v 0 (elem_size l)) = elem_size l) as Hnew
    by (apply blen_slice; lia).
  intros j c Hj. rewrite lookup_splice;
    [|nia|rewrite Hnew, blen_app, blen_replicate; unfold blen; nia].
  rewrite Hnew. rewrite decide_False by nia. rewrite decide_False by nia.
  intros [Hold|[_ Hzero]]%lookup_app_Some.
  - apply lookup_lt_Some in Hold. nia.
  - by apply lookup_replicate in Hzero as [-> _].
Qed.

(** ** Pop and peek *)

(** X7. On a non-empty list a pop always removes the last element, whatever
    the allocator does: it returns [LIST_OK] or [LIST_ERR_ALLOC], the
    output block (when given, and large enough) receives the element at
    [size - 1], [size] drops by one, the elements below are unchanged, and
    the capacity stays between 1 and its old value. *)
Theorem list_pop_removes_last a l out :
  wf l → 0 < size l →
  (∀ o, out = Some o → elem_size l ≤ blen o) →
  ∃ st l',
    list_pop a (Some l) out =
      Returns (st, Some l',
               (λ o, slot l (size l - 1) ++ drop (Z.to_nat (elem_size l)) o)
                 <$> out) ∧
    (st = LIST_OK ∨ st = LIST_ERR_ALLOC) ∧
    wf l' ∧ size l' = size l - 1 ∧ elem_size l' = elem_size l ∧
    1 ≤ capacity l' ≤ capacity l ∧
    ∀ i, 0 ≤ i < size l - 1 → slot l' i = slot l i.
Proof.
  intros Hwf Hpos Hout.
  destruct (list_pop_total a l out Hwf Hpos Hout)
    as (st & l' & Hpop & Hst & ? & ? & ? & ? & _ & ?).
  exists st, l'. split_and!; try done; try lia.
  destruct Hst as [|[? _]]; auto.
Qed.

(** [list_resize] rejects only a zero capacity as invalid. *)
Lemma list_resize_invalid a l n lst' :
  list_resize a (Some l) n = Returns (LIST_ERR_INVALID, lst') → n = 0.
Proof.
  unfold list_resize. destruct (Z.eqb_spec n 0); [done|].
  destruct (n =? capacity l); [done|]. unfold_bind.
  destruct (realloc _ _ _) as [|[blk|]]; try done.
  by destruct (if _ <? _ then _ else _).
Qed.

(** X8. [list_pop] returns [LIST_ERR_INVALID] exactly when the list has no
    buffer or no element, and then neither the list nor the output block is
    touched. *)
Theorem list_pop_invalid_iff a l out :
  (data l = None ∨ size l = 0 →
   list_pop a (Some l) out = Returns (LIST_ERR_INVALID, Some l, out)) ∧
  (∀ lst' out',
     list_pop a (Some l) out = Returns (LIST_ERR_INVALID, lst', out') →
     data l = None ∨ size l = 0).
Proof.
  unfold list_pop. split.
  - intros [->| ->]; [done|]. by destruct (data l).
  - intros lst' out'. destruct (data l) as [buf|]; [|by left].
    destruct (Z.eqb_spec (size l) 0); [by right|].
    unfold_bind. destruct out as [o|]; [destruct (memcpy _ _ _ _ _); [done|]|].
    all: destruct (_ && _); [|done].
    all: destruct (list_resize _ _ _) as [|[st lst1]] eqn:Hres; [done|].
    all: destruct st; try done.
    all: apply list_resize_invalid in Hres.
    all: cbn [capacity set_size] in Hres.
    all: destruct (Z.ltb_spec (capacity l / 2) 1); lia.
Qed.

(** X9. Push then pop is the identity on the contents: after a successful
    push of [v], a pop returns [LIST_OK] or [LIST_ERR_ALLOC], copies the
    bytes of [v] to the output block, and leaves [size] and every element
    as they were before the push. *)
Theorem list_push_pop_inverse a a' l v l1 out :
  wf l → list_push a (Some l) (Some v) = Returns (LIST_OK, Some l1) →
  elem_size l ≤ blen out →
  ∃ st l2,
    list_pop a' (Some l1) (Some out) =
      Returns (st, Some l2,
               Some (slice v 0 (elem_size l)
                     ++ drop (Z.to_nat (elem_size l)) out)) ∧
    (st = LIST_OK ∨ st = LIST_ERR_ALLOC) ∧
    size l2 = size l ∧ elem_size l2 = elem_size l ∧
    ∀ i, 0 ≤ i < size l → slot l2 i = slot l i.
Proof.
  intros Hwf Hpush Hout. pose proof Hwf as [Hs _ _ _].
  apply list_push_slots in Hpush as (Hwf1 & Hs1 & He1 & _ & Hnew & Hold);
    [|done].
  destruct (list_pop_total a' l1 (Some out) Hwf1)
    as (st & l2 & Hpop & Hst & _ & Hs2 & He2 & _ & _ & Hkeep);
    [lia|intros o [= <-]; lia|].
  exists st, l2. rewrite Hpop, Hs1, He1.
  replace (size l + 1 - 1) with (size l) by lia. rewrite Hnew.
  split_and!; [done| |lia|congruence|].
  - destruct Hst as [|[? _]]; eauto.
  - intros i Hi. rewrite Hkeep by lia. by apply Hold.
Qed.

(** X10. [list_peek] on a non-empty list is [list_get] at [size - 1]: it
    returns [LIST_OK] and copies the last element, which is the block a
    [list_pop] would copy out; on an empty list it returns
    [LIST_ERR_INVALID] and leaves the output block untouched. *)
Theorem list_peek_last l out :
  wf l → elem_size l ≤ blen out →
  (0 < size l →
   list_peek (Some l) (Some out) =
     Returns (LIST_OK,
              Some (slot l (size l - 1)
                    ++ drop (Z.to_nat (elem_size l)) out)) ∧
   list_peek (Some l) (Some out) = list_get (Some l) (size l - 1) (Some out) ∧
   ∀ a, ∃ st l',
     list_pop a (Some l) (Some out) =
       Returns (st, Some l',
                Some (slot l (size l - 1)
                      ++ drop (Z.to_nat (elem_size l)) out))) ∧
  (size l = 0 →
   list_peek (Some l) (Some out) = Returns (LIST_ERR_INVALID, Some out)).
Proof.
  intros Hwf Hout. pose proof Hwf as [Hs He Hb Hd]. split.
  - intros Hpos.
    assert (list_peek (Some l) (Some out)
            = list_get (Some l) (size l - 1) (Some out)) as Hpeek.
    { unfold list_peek. destruct (data l); [|lia].
      destruct (Z.eqb_spec (size l) 0); [lia|].
      unfold size_sub. by rewrite wrap_small by (unfold size_t; nia). }
    split_and!; [|done|].
    + rewrite Hpeek. apply list_get_ok; [done|lia|done].
    + intros a.
      destruct (list_pop_total a l (Some out) Hwf Hpos)
        as (st & l' & Hpop & _); [by intros o [= <-]|].
      by exists st, l'.
  - intros Hz. unfold list_peek. rewrite Hz. by destruct (data l).
Qed.

(** ** Hysteresis *)

(** X11. A pop right after a push that grew the list never shrinks it: it
    returns [LIST_OK] without consulting the allocator and the capacity
    stays at the doubled value. *)
Theorem list_pop_after_growth a a' l v l1 out :
  wf l → size l = capacity l →
  list_push a (Some l) (Some v) = Returns (LIST_OK, Some l1) →
  (∀ o, out = Some o → elem_size l ≤ blen o) →
  ∃ out',
    list_pop a' (Some l1) out
      = Returns (LIST_OK, Some (set_size l1 (size l)), out') ∧
    capacity l1 = doubled (capacity l).
Proof.
  intros Hwf Hfull Hpush Hout. pose proof Hwf as [Hs _ _ _].
  apply list_push_slots in Hpush as (Hwf1 & Hs1 & He1 & Hc1 & _); [|done].
  assert (capacity l1 = doubled (capacity l)) as Hcap.
  { rewrite Hc1. unfold push_capacity.
    by destruct (Z.ltb_spec (size l) (capacity l)); [lia|]. }
  assert (1 ≤ doubled (capacity l))
    by (unfold doubled; destruct (Z.eqb_spec (capacity l) 0); lia).
  destruct (list_pop_total a' l1 out Hwf1)
    as (st & l2 & Hpop & _ & _ & _ & _ & _ & Hsame & _);
    [lia|by rewrite He1|].
  replace (size l1 - 1) with (size l) in * by lia.
  destruct Hsame as [-> ->]; [|by eexists].
  unfold shrinks. cbn [size capacity set_size]. rewrite Hcap. unfold doubled.
  destruct (Z.eqb_spec (capacity l) 0) as [Hz|]; [done|].
  apply andb_false_iff. right. apply Z.ltb_ge. rewrite Hfull.
  apply Z.div_le_upper_bound; lia.
Qed.

(** X12. A push right after a pop that shrank the list never grows it: it
    succeeds without consulting the allocator and the capacity stays at
    the halved value. *)
Theorem list_push_after_shrink a a' l out l1 out' v :
  wf l →
  list_pop a (Some l) out = Returns (LIST_OK, Some l1, out') →
  capacity l1 ≠ capacity l →
  elem_size l ≤ blen v →
  ∃ l2, list_push a' (Some l1) (Some v) = Returns (LIST_OK, Some l2) ∧
        capacity l2 = capacity l1 ∧ capacity l1 = capacity l / 2.
Proof.
  intros Hwf Hpop Hshrunk Hv.
  destruct (list_pop_valid _ _ _ _ _ _ Hwf Hpop) as (buf & Hdata & Hpos);
    [done|].
  pose proof (list_pop_wf _ _ _ _ _ _ Hwf Hpop) as Hwf1.
  rewrite (list_pop_spec a l buf out Hwf Hdata Hpos) in Hpop.
  revert Hpop. unfold_bind. destruct (copy_out _ _ _ _); [done|].
  destruct (shrinks _) eqn:Hshrink; [|by intros [= <- _]].
  destruct (grants a _); [|done]. intros [= <- _].
  apply andb_true_iff in Hshrink as [Hc%Z.ltb_lt Hq%Z.ltb_lt].
  cbn [size capacity set_size] in *.
  assert (4 * (capacity l / 4) ≤ capacity l) by (apply Z.mul_div_le; lia).
  assert (capacity l ≤ 2 * (capacity l / 2) + 1)
    by (pose proof (Z.div_mod (capacity l) 2);
        pose proof (Z.mod_pos_bound (capacity l) 2); lia).
  eexists. rewrite list_push_room; [done|done|cbn; lia|done].
Qed.

(** ** Stack order *)

Lemma pop_all_slots out vals : ∀ l allocs,
  wf l → size l = Z.of_nat (length vals) → length allocs = length vals →
  (∀ (i : nat) x, vals !! i = Some x → slot l (Z.of_nat i) = x) →
  elem_size l ≤ blen out →
  ∃ l', pop_all allocs l out =
          Returns (reverse ((λ x, x ++ drop (Z.to_nat (elem_size l)) out)
                              <$> vals), l') ∧
        size l' = 0 ∧ elem_size l' = elem_size l ∧ wf l'.
Proof.
  induction vals as [|x vals IH] using rev_ind;
    intros l allocs Hwf Hsize Hlen Hslots Hout.
  - destruct allocs; [|done]. exists l. by cbn.
  - rewrite length_app in Hsize, Hlen. cbn [length] in Hsize, Hlen.
    destruct allocs as [|a allocs]; [cbn in Hlen; lia|].
    cbn [length] in Hlen.
    destruct (list_pop_total a l (Some out) Hwf)
      as (st & l1 & Hpop & Hst & Hwf1 & Hs1 & He1 & _ & _ & Hkeep);
      [lia|by intros o [= <-]|].
    assert (slot l (size l - 1) = x) as Hlast.
    { replace (size l - 1) with (Z.of_nat (length vals)) by lia.
      apply Hslots. by rewrite lookup_app_r, Nat.sub_diag by lia. }
    destruct (IH l1 allocs) as (l' & Hall & Hs' & He' & Hwf');
      [done|lia|lia| |lia|].
    { intros i y Hy. apply lookup_lt_Some in Hy as Hlt.
      rewrite Hkeep by lia. apply Hslots. by rewrite lookup_app_l. }
    exists l'. split_and!; [|done|congruence|done].
    cbn [pop_all]. rewrite Hpop. unfold_bind. cbn [fmap option_fmap option_map].
    rewrite Hlast, He1 in *. rewrite fmap_app, reverse_app. cbn.
    destruct Hst as [->|[-> _]]; by rewrite Hall.
Qed.

(** X13. Last in, first out: after a run of successful pushes into a
    freshly initialised list, popping as many times returns the pushed
    values in reverse order and leaves the list empty, whether or not the
    shrinks along the way are granted. *)
Theorem list_pop_reverses_pushes a0 l0 c es l ps l' allocs out :
  size_t c → size_t es →
  list_init_with_capacity a0 (Some l0) c es = (LIST_OK, Some l) →
  push_all ps l = Some l' →
  length allocs = length ps → es ≤ blen out →
  ∃ l'', pop_all allocs l' out =
           Returns (reverse ((λ p, slice p.2 0 es ++ drop (Z.to_nat es) out)
                               <$> ps), l'') ∧
         size l'' = 0.
Proof.
  intros Hc Hes Hinit Hall Hlen Hout.
  apply list_init_with_capacity_ok in Hinit as (Hwf & Hs & _ & He & _);
    [|done..].
  apply push_all_slots in Hall as (Hwf' & Hs' & He' & _ & Hnew); [|done].
  rewrite Hs, Z.add_0_l in Hs'.
  destruct (pop_all_slots out ((λ p, slice p.2 0 es) <$> ps) l' allocs)
    as (l'' & Hpop & Hz & _); [done|by rewrite length_fmap
                              |by rewrite length_fmap| |lia|].
  { intros i x Hx. apply list_lookup_fmap_Some in Hx as ([a v] & -> & Hp).
    specialize (Hnew i a v Hp). by rewrite Hs, Z.add_0_l, He in Hnew. }
  exists l''. split; [|done]. rewrite Hpop, He', He.
  by rewrite <- list_fmap_compose.
Qed.

(** ** Indexed access *)

(** X14. Bounds: on a list with a buffer, [list_get] and [list_set] return
    [LIST_OUT_OF_BOUNDS] exactly for the indices [>= size], touching neither
    the output block nor the list, and succeed for every index below [size]
    (the blocks being large enough). *)
Theorem list_get_set_bounds l buf index out v :
  wf l → data l = Some buf → 0 ≤ index →
  elem_size l ≤ blen out → elem_size l ≤ blen v →
  list_get (Some l) index (Some out) =
    (if size l <=? index then Returns (LIST_OUT_OF_BOUNDS, Some out)
     else Returns (LIST_OK,
                   Some (slot l index ++ drop (Z.to_nat (elem_size l)) out))) ∧
  list_set (Some l) index (Some v) =
    (if size l <=? index then Returns (LIST_OUT_OF_BOUNDS, Some l)
     else Returns (LIST_OK,
                   Some (set_data l
                     (Some (splice buf (index * elem_size l)
                                   (slice v 0 (elem_size l))))))).
Proof.
  intros Hwf Hdata Hi Hout Hv. pose proof (wf_blen l Hwf) as Hlen.
  rewrite (buffer_data l buf Hdata) in Hlen. pose proof Hwf as [Hs He Hb _].
  destruct (Z.leb_spec (size l) index) as [Hge|Hlt].
  - unfold list_get, list_set. rewrite Hdata.
    by destruct (Z.leb_spec (size l) index); [|lia].
  - split; [apply list_get_ok; [done|lia|done]|].
    unfold list_set. rewrite Hdata.
    destruct (Z.leb_spec (size l) index); [lia|].
    unfold size_mul, memcpy.
    rewrite wrap_small by (apply wf_offset; [done|lia]).
    assert (in_bounds buf (index * elem_size l) (elem_size l) = true) as ->
      by (apply in_bounds_true; nia).
    assert (in_bounds v 0 (elem_size l) = true) as ->
      by (apply in_bounds_true; lia).
    done.
Qed.

(** X15. Set then get: after a successful [list_set] at [index],
    [list_get] at [index] returns the bytes written, and [list_get] at any
    other index below [size] returns what it returned before. *)
Theorem list_set_get_roundtrip l index v l' out :
  wf l → 0 ≤ index < size l →
  list_set (Some l) index (Some v) = Returns (LIST_OK, Some l') →
  elem_size l ≤ blen out →
  list_get (Some l') index (Some out) =
    Returns (LIST_OK,
             Some (slice v 0 (elem_size l)
                   ++ drop (Z.to_nat (elem_size l)) out)) ∧
  ∀ j, 0 ≤ j < size l → j ≠ index →
       list_get (Some l') j (Some out) = list_get (Some l) j (Some out).
Proof.
  intros Hwf Hi Hset Hout. pose proof (wf_blen l Hwf) as Hlen.
  pose proof (list_set_wf _ _ _ _ _ Hwf Hset) as Hwf'.
  pose proof Hwf as [Hs He Hb Hd].
  destruct (data l) as [buf|] eqn:Hdata; [|lia].
  rewrite (buffer_data l buf Hdata) in Hlen.
  pose proof (list_set_ok l buf index v _ Hwf Hdata Hi Hset) as [Hv Heq].
  injection Heq as Heq. subst l'.
  assert (blen (slice v 0 (elem_size l)) = elem_size l) as Hnew
    by (apply blen_slice; lia).
  split.
  - rewrite list_get_ok; [|done|by cbn|by cbn].
    unfold slot. rewrite buffer_set_data. cbn [set_data elem_size].
    do 4 f_equal.
    pose proof (slice_splice_same buf (index * elem_size l)
                  (slice v 0 (elem_size l))) as Hsame.
    rewrite Hnew in Hsame. apply Hsame; nia.
  - intros j Hj Hne. rewrite !list_get_ok; [|done..|done|by cbn|by cbn].
    unfold slot. rewrite buffer_set_data, (buffer_data l buf Hdata).
    cbn [set_data elem_size]. do 4 f_equal.
    apply slice_ext; [nia|lia|]. intros k Hk.
    apply (splice_slot_frame l); [done..|nia].
Qed.

(** ** Clear, destroy and initialisation *)

(** X16. [list_clear] empties the list and keeps its allocation: [size]
    becomes 0 while capacity, buffer and element width stay; every
    [list_get] then returns [LIST_OUT_OF_BOUNDS], and when the capacity is
    not 0 the next push succeeds without consulting the allocator. *)
Theorem list_clear_keeps_allocation l l' :
  wf l → list_clear (Some l) = Some l' →
  wf l' ∧ size l' = 0 ∧ capacity l' = capacity l ∧ data l' = data l ∧
  elem_size l' = elem_size l ∧
  (data l ≠ None → ∀ index out,
     0 ≤ index →
     list_get (Some l') index (Some out)
       = Returns (LIST_OUT_OF_BOUNDS, Some out)) ∧
  (0 < capacity l → ∀ a v,
     elem_size l ≤ blen v →
     ∃ l'', list_push a (Some l') (Some v) = Returns (LIST_OK, Some l'') ∧
            capacity l'' = capacity l ∧ size l'' = 1).
Proof.
  intros Hwf Hclear. pose proof (list_clear_wf _ _ Hwf Hclear) as Hwf'.
  injection Hclear as <-. split_and!; try done.
  - intros Hbuf index out Hi. unfold list_get. cbn [data size set_size].
    destruct (data l); [|done].
    by destruct (Z.leb_spec 0 index); [|lia].
  - intros Hcap a v Hv. eexists.
    rewrite list_push_room; [done|done|by cbn|by cbn].
Qed.

(** X17. An allocation failure in [list_init_with_capacity] leaves the
    object as the empty list that [list_init] produces for the same element
    width, well formed and usable; [list_init] itself never allocates and
    never returns [LIST_ERR_ALLOC]; an element width of 0 is rejected with
    the object untouched. *)
Theorem list_init_failure a a' l0 c es :
  (∀ l, list_init_with_capacity a (Some l0) c es = (LIST_ERR_ALLOC, Some l) →
        list_init a' (Some l0) es = (LIST_OK, Some l) ∧
        l = mk_list None 0 0 es ∧ (size_t es → wf l)) ∧
  (list_init a (Some l0) es).1 ≠ LIST_ERR_ALLOC ∧
  list_init_with_capacity a (Some l0) c 0 = (LIST_ERR_INVALID, Some l0).
Proof.
  unfold list_init, list_init_with_capacity. split_and!; [|by destruct (es =? 0)|done].
  intros l. destruct (Z.eqb_spec es 0); [done|].
  destruct (c =? 0); [done|]. cbn.
  destruct (calloc a c es); [done|]. intros [= <-].
  split_and!; [done..|]. unfold size_t. intros ?. split; cbn; lia.
Qed.

(** X18. A destroyed list can be used again without initialising it:
    [list_destroy] keeps the element width, so the object is a well-formed
    empty list and a push allocates one slot and stores the value. *)
Theorem list_destroy_then_push l l' a v :
  wf l → (list_destroy (Some l)).1 = Some l' →
  grants a (elem_size l) = true → elem_size l ≤ blen v →
  wf l' ∧
  list_push a (Some l') (Some v) =
    Returns (LIST_OK,
             Some (mk_list (Some (slice v 0 (elem_size l))) 1 1 (elem_size l))).
Proof.
  intros Hwf Hdestroy Hgrant Hv.
  pose proof (list_destroy_wf _ _ Hwf Hdestroy) as Hwf'.
  injection Hdestroy as <-.
  change (set_capacity (set_size (set_data l None) 0) 0)
    with (mk_list None 0 0 (elem_size l)) in *.
  split; [done|]. pose proof Hwf as [_ He _ _].
  rewrite list_push_full; [|done|done|cbn; lia|by right].
  cbn [size capacity elem_size buffer data]. unfold doubled. cbn [Z.eqb].
  rewrite Z.mul_1_l, Hgrant. do 4 f_equal.
  rewrite Z.mul_0_l, Z.sub_0_r.
  assert (blen (slice v 0 (elem_size l)) = elem_size l) as Hnew
    by (apply blen_slice; lia).
  change (buffer (mk_list None 0 0 (elem_size l))) with (@nil byte).
  rewrite app_nil_l. f_equal. unfold splice.
  change (Z.to_nat 0) with 0%nat. rewrite take_0, app_nil_l, Nat.add_0_l.
  rewrite drop_ge, app_nil_r; [done|].
  rewrite length_replicate. unfold blen in Hnew. lia.
Qed.

(** X19. A buffer, once allocated, stays until [list_destroy]: push, pop,
    set and clear, whatever status they return, leave a list that had a
    buffer with a buffer, and with a capacity of 1 or more. *)
Theorem list_buffer_persists l :
  wf l → data l ≠ None →
  (∀ a value st l',
     list_push a (Some l) value = Returns (st, Some l') →
     data l' ≠ None ∧ 1 ≤ capacity l') ∧
  (∀ a out st l' out',
     list_pop a (Some l) out = Returns (st, Some l', out') →
     data l' ≠ None ∧ 1 ≤ capacity l') ∧
  (∀ index value st l',
     list_set (Some l) index value = Returns (st, Some l') →
     data l' ≠ None ∧ 1 ≤ capacity l') ∧
  (∀ l', list_clear (Some l) = Some l' → data l' ≠ None ∧ 1 ≤ capacity l').
Proof.
  intros Hwf Hbuf.
  assert (1 ≤ capacity l) as Hcap
    by (destruct Hwf as [_ _ _ Hd]; destruct (data l); [lia|done]).
  assert (∀ l', wf l' → capacity l ≤ capacity l' ∨ 1 ≤ capacity l' →
                data l' ≠ None ∧ 1 ≤ capacity l') as Hkeep.
  { intros l' [_ _ _ Hd] Hc. destruct (data l'); [split; [done|lia]|lia]. }
  split_and!.
  - intros a value st l' Hpush. apply Hkeep; [by eapply list_push_wf|].
    left. destruct (decide (st = LIST_OK)) as [->|Hst].
    + destruct value as [v|]; [|done].
      apply list_push_slots in Hpush as (_ & _ & _ & -> & _); [|done].
      by apply push_capacity_bounds.
    + apply list_push_fail in Hpush; [|done]. by simplify_eq.
  - intros a out st l' out' Hpop. apply Hkeep; [by eapply list_pop_wf|].
    right. pose proof Hwf as [Hs _ _ _].
    destruct (data l) as [buf|] eqn:Hdata; [|done].
    destruct (decide (size l = 0)) as [Hz|Hnz].
    + unfold list_pop in Hpop. rewrite Hdata, Hz in Hpop. by simplify_eq/=.
    + rewrite (list_pop_spec a l buf out Hwf Hdata) in Hpop by lia.
      revert Hpop. unfold_bind. destruct (copy_out _ _ _ _); [done|].
      destruct (shrinks _) eqn:Hshrink; [|by intros [= _ <- _]].
      destruct (grants a _); [|by intros [= _ <- _]].
      intros [= _ <- _]. cbn [capacity].
      apply andb_true_iff in Hshrink as [Hc%Z.ltb_lt _].
      cbn [capacity set_size] in Hc. apply Z.div_le_lower_bound; lia.
  - intros index value st l' Hset. apply Hkeep; [by eapply list_set_wf|].
    left. revert Hset. unfold list_set. destruct (data l); [|done].
    destruct (size l <=? index); [by intros [= _ <-]|].
    destruct value; [|done]. unfold_bind.
    destruct (memcpy _ _ _ _ _); [done|]. by intros [= _ <-].
  - intros l' Hclear. apply Hkeep; [by eapply list_clear_wf|].
    left. by injection Hclear as <-.
Qed.

(** ** Resizing *)


(** ** Status messages *)

(** X21. [list_error_to_string] gives each of the four status codes a
    message of its own, none of them the fallback, and gives every other
    value the fallback ["Unknown error"]. *)
Theorem list_error_to_string_distinct :
  (∀ s1 s2,
     list_error_to_string (status_code s1)
       = list_error_to_string (status_code s2) ↔ s1 = s2) ∧
  (∀ s, list_error_to_string (status_code s) ≠ "Unknown error"%string) ∧
  (∀ err, err < 0 ∨ 3 < err →
          list_error_to_string err = "Unknown error"%string).
Proof.
  split_and!.
  - intros s1 s2. split; [|by intros ->]. by destruct s1, s2.
  - by intros [].
  - intros err Herr. unfold list_error_to_string.
    destruct (Z.eqb_spec err 0); [lia|]. destruct (Z.eqb_spec err 1); [lia|].
    destruct (Z.eqb_spec err 2); [lia|]. by destruct (Z.eqb_spec err 3); [lia|].
Qed.

(** ** Instances of the further properties *)

Lemma test_list_wf : wf test_list.
Proof. apply reachable_wf, test_list_reachable. Qed.

Lemma one_elem_wf : wf one_elem.
Proof. apply reachable_wf, one_elem_reachable. Qed.

Lemma populated_wf : wf populated.
Proof. apply reachable_wf, populated_reachable. Qed.

Lemma eight_slots_wf : wf eight_slots.
Proof.
  apply reachable_wf, (reach_init always blank 8 1);
    [apply size_t_small; lia..|exact eight_slots_init].
Qed.

Lemma two_elems_pushed :
  list_push always (Some one_elem) (Some (int32 7))
  = Returns (LIST_OK, Some two_elems).
Proof. by vm_compute. Qed.

Lemma two_elems_wf : wf two_elems.
Proof. exact (list_push_wf _ _ _ _ _ one_elem_wf two_elems_pushed). Qed.

Lemma three_elems_pushed :
  list_push always (Some two_elems) (Some (int32 9))
  = Returns (LIST_OK, Some three_elems).
Proof. by vm_compute. Qed.

Lemma at_limit_wf : wf at_limit.
Proof.
  split; unfold at_limit; cbn [data size capacity elem_size];
    unfold SIZE_MAX; try lia.
  split; [lia|]. rewrite blen_replicate; lia.
Qed.

Lemma list_push_appends_witness :
  wf one_elem ∧ size one_elem = size test_list + 1 ∧
  elem_size one_elem = elem_size test_list ∧
  slot one_elem (size test_list) = slice (int32 5) 0 (elem_size test_list) ∧
  ∀ i, 0 ≤ i < size test_list → slot one_elem i = slot test_list i.
Proof.
  exact (list_push_appends always test_list (int32 5) one_elem
           test_list_wf one_elem_pushed).
Defined.

Lemma list_push_failure_unchanged_witness :
  list_push never (Some one_elem) (Some (int32 7))
    = Returns (LIST_ERR_ALLOC, Some one_elem) ∧
  Some one_elem = Some one_elem.
Proof.
  split; [by vm_compute|].
  apply (list_push_failure_unchanged never (Some one_elem)
           (Some (int32 7)) LIST_ERR_ALLOC (Some one_elem));
    [by vm_compute|done].
Defined.

Lemma list_push_without_allocation_witness :
  ∃ l', list_push always (Some eight_slots) (Some [x01])
          = Returns (LIST_OK, Some l') ∧
        list_push never (Some eight_slots) (Some [x01])
          = Returns (LIST_OK, Some l') ∧
        capacity l' = capacity eight_slots ∧
        size l' = size eight_slots + 1 ∧
        blen (buffer l') = blen (buffer eight_slots) ∧
        buffer l' = splice (buffer eight_slots)
                           (size eight_slots * elem_size eight_slots)
                           (slice [x01] 0 (elem_size eight_slots)).
Proof.
  exact (list_push_without_allocation always eight_slots [x01]
           eight_slots_wf ltac:(by vm_compute) ltac:(by vm_compute)).
Defined.

Lemma list_push_full_list_witness :
  list_push never (Some one_elem) (Some (int32 7))
    = Returns (LIST_ERR_ALLOC, Some one_elem) ∧
  ∃ l', list_push always (Some one_elem) (Some (int32 7))
          = Returns (LIST_OK, Some l') ∧
        capacity l' = doubled (capacity one_elem) ∧
        size l' = size one_elem + 1.
Proof.
  split.
  - apply (list_push_full_list never one_elem (int32 7) one_elem_wf);
      by vm_compute.
  - apply (list_push_full_list always one_elem (int32 7) one_elem_wf);
      by vm_compute.
Defined.

Lemma list_push_capacity_limit_witness :
  wf at_limit ∧
  list_push always (Some at_limit) (Some [x01])
    = Returns (LIST_ERR_INVALID, Some at_limit).
Proof.
  split; [exact at_limit_wf|].
  apply list_push_capacity_limit; [reflexivity|apply Z.le_refl].
Defined.

Lemma list_push_grown_free_zero_witness :
  capacity three_elems = 4 ∧ size three_elems = 3 ∧ free_zero three_elems.
Proof.
  split_and!; [by vm_compute..|].
  apply (list_push_grown_free_zero always two_elems (int32 9) three_elems
           two_elems_wf); [by vm_compute|exact three_elems_pushed].
Defined.

Lemma list_pop_removes_last_witness :
  ∃ st l',
    list_pop never (Some sparse) (Some [xff]) =
      Returns (st, Some l',
               (λ o, slot sparse (size sparse - 1)
                     ++ drop (Z.to_nat (elem_size sparse)) o)
                 <$> Some [xff]) ∧
    (st = LIST_OK ∨ st = LIST_ERR_ALLOC) ∧
    wf l' ∧ size l' = size sparse - 1 ∧ elem_size l' = elem_size sparse ∧
    1 ≤ capacity l' ≤ capacity sparse ∧
    ∀ i, 0 ≤ i < size sparse - 1 → slot l' i = slot sparse i.
Proof.
  apply (list_pop_removes_last never sparse (Some [xff]) sparse_wf);
    [by vm_compute|].
  intros o [= <-]. by vm_compute.
Defined.

Lemma list_push_pop_inverse_witness :
  ∃ st l2,
    list_pop always (Some one_elem) (Some (int32 0)) =
      Returns (st, Some l2,
               Some (slice (int32 5) 0 (elem_size test_list)
                     ++ drop (Z.to_nat (elem_size test_list)) (int32 0))) ∧
    (st = LIST_OK ∨ st = LIST_ERR_ALLOC) ∧
    size l2 = size test_list ∧ elem_size l2 = elem_size test_list ∧
    ∀ i, 0 ≤ i < size test_list → slot l2 i = slot test_list i.
Proof.
  exact (list_push_pop_inverse always always test_list (int32 5) one_elem
           (int32 0) test_list_wf one_elem_pushed ltac:(by vm_compute)).
Defined.

Lemma list_peek_last_witness :
  list_peek (Some populated) (Some (int32 0))
  = Returns (LIST_OK, Some (int32 90)).
Proof.
  pose proof (list_peek_last populated (int32 0) populated_wf
                ltac:(by vm_compute)) as [Hlast _].
  destruct (Hlast ltac:(by vm_compute)) as (Hpeek & _ & _).
  rewrite Hpeek. by vm_compute.
Defined.

Lemma list_pop_after_growth_witness :
  ∃ out',
    list_pop never (Some two_elems) (Some (int32 0))
      = Returns (LIST_OK, Some (set_size two_elems (size one_elem)), out') ∧
    capacity two_elems = doubled (capacity one_elem).
Proof.
  apply (list_pop_after_growth always never one_elem (int32 7) two_elems
           (Some (int32 0)) one_elem_wf);
    [by vm_compute|exact two_elems_pushed|].
  intros o [= <-]. by vm_compute.
Defined.

Lemma list_push_after_shrink_witness :
  ∃ l2, list_push never (Some shrunk) (Some [x09])
          = Returns (LIST_OK, Some l2) ∧
        capacity l2 = capacity shrunk ∧
        capacity shrunk = capacity sparse / 2.
Proof.
  apply (list_push_after_shrink always never sparse None shrunk None [x09]
           sparse_wf sparse_popped); by vm_compute.
Defined.

Lemma list_pop_reverses_pushes_witness :
  ∃ l'', pop_all (replicate 10 never) populated (int32 0) =
           Returns (reverse ((λ p, slice p.2 0 4 ++ drop (Z.to_nat 4) (int32 0))
                               <$> ten_values), l'') ∧
         size l'' = 0.
Proof.
  apply (list_pop_reverses_pushes always blank 0 4 test_list ten_values
           populated (replicate 10 never) (int32 0));
    [apply size_t_small; lia|apply size_t_small; lia
    |exact test_list_init|exact populated_pushed|(by vm_compute)..].
Defined.

Lemma list_get_set_bounds_witness :
  list_get (Some populated) 15 (Some (int32 0))
    = Returns (LIST_OUT_OF_BOUNDS, Some (int32 0)) ∧
  list_set (Some populated) 15 (Some (int32 1))
    = Returns (LIST_OUT_OF_BOUNDS, Some populated).
Proof.
  exact (list_get_set_bounds populated (buffer populated) 15 (int32 0)
           (int32 1) populated_wf ltac:(by vm_compute) ltac:(by vm_compute)
           ltac:(by vm_compute) ltac:(by vm_compute)).
Defined.

Lemma list_set_get_roundtrip_witness :
  list_get (Some updated) 7 (Some (int32 0))
    = Returns (LIST_OK,
               Some (slice (int32 123) 0 (elem_size populated)
                     ++ drop (Z.to_nat (elem_size populated)) (int32 0))) ∧
  ∀ j, 0 ≤ j < size populated → j ≠ 7 →
       list_get (Some updated) j (Some (int32 0))
       = list_get (Some populated) j (Some (int32 0)).
Proof.
  exact (list_set_get_roundtrip populated 7 (int32 123) updated (int32 0)
           populated_wf ltac:(by vm_compute) populated_updated
           ltac:(by vm_compute)).
Defined.

Lemma list_clear_keeps_allocation_witness :
  size (set_size populated 0) = 0 ∧
  capacity (set_size populated 0) = capacity populated ∧
  data (set_size populated 0) = data populated.
Proof.
  pose proof (list_clear_keeps_allocation populated (set_size populated 0)
                populated_wf eq_refl) as (_ & Hs & Hc & Hd & _).
  by split_and!.
Defined.

Lemma list_destroy_then_push_witness :
  wf (mk_list None 0 0 4) ∧
  list_push always (Some (mk_list None 0 0 4)) (Some (int32 1)) =
    Returns (LIST_OK,
             Some (mk_list (Some (slice (int32 1) 0 (elem_size populated)))
                           1 1 (elem_size populated))).
Proof.
  exact (list_destroy_then_push populated (mk_list None 0 0 4) always
           (int32 1) populated_wf ltac:(by vm_compute) ltac:(by vm_compute)
           ltac:(by vm_compute)).
Defined.

Lemma list_buffer_persists_witness :
  data updated ≠ None ∧ 1 ≤ capacity updated.
Proof.
  exact (proj1 (proj2 (proj2 (list_buffer_persists populated populated_wf
                                ltac:(by vm_compute))))
           7 (Some (int32 123)) LIST_OK updated populated_updated).
Defined.



(** X22. [list_size] counts the elements: after a successful
    initialisation and a run of [n] successful pushes it returns [n], which
    never exceeds what [list_capacity] returns, itself at least the
    capacity asked for at initialisation. *)
Theorem list_size_counts_pushes a0 l0 c es l ps l' :
  size_t c → size_t es →
  list_init_with_capacity a0 (Some l0) c es = (LIST_OK, Some l) →
  push_all ps l = Some l' →
  list_size (Some l') = Z.of_nat (length ps) ∧
  list_size (Some l') ≤ list_capacity (Some l') ∧
  c ≤ list_capacity (Some l').
Proof.
  intros Hc Hes Hinit Hall.
  apply list_init_with_capacity_ok in Hinit as (Hwf & Hs & Hcap & _);
    [|done..].
  assert (∀ ps l l', wf l → push_all ps l = Some l' →
                     capacity l ≤ capacity l') as Hmono.
  { clear. induction ps as [|[a v] ps IH]; intros l l' Hwf Hall.
    - injection Hall as <-. lia.
    - cbn [push_all] in Hall.
      destruct (list_push a (Some l) (Some v)) as [|[[] [l1|]]] eqn:Hpush;
        try done.
      apply list_push_slots in Hpush as (Hwf1 & _ & _ & Hc1 & _); [|done].
      pose proof (push_capacity_bounds l Hwf) as [Hle _].
      specialize (IH _ _ Hwf1 Hall). lia. }
  pose proof (Hmono _ _ _ Hwf Hall) as Hle.
  apply push_all_slots in Hall as ([Hs' _ _ _] & Hsize & _); [|done].
  cbn [list_size list_capacity]. lia.
Qed.

Lemma list_size_counts_pushes_witness :
  list_size (Some populated) = 10 ∧
  list_size (Some populated) ≤ list_capacity (Some populated) ∧
  0 ≤ list_capacity (Some populated).
Proof.
  exact (list_size_counts_pushes always blank 0 4 test_list ten_values
           populated (size_t_small 0 ltac:(lia)) (size_t_small 4 ltac:(lia))
           test_list_init populated_pushed).
Defined.
